(** * boa_unicode/build_tables.js: the Unicode table generator

    A shallow embedding of [buildRustFile] and of the constants it uses,
    followed by the properties of its four stages: record parsing
    ([dataRegex] and [matchAll]), table building (filter, range expansion,
    sort), code generation and writing.

    Conventions of the embedding.
    - A JavaScript string is a [list ascii]; an [ascii] stands for one
      UTF-16 code unit below 256.  Every character class of the script
      is decided on these code units.
    - A JavaScript Number holding an integer is a [Z]; [NaN] is kept
      apart.  The script only uses [parseInt], [<=], [++], [-] and
      [toString(16)], all of which are exact on the integers a double
      represents exactly (magnitude up to 2^53), far above any code
      point.
    - [console.log], [fs.writeFileSync] and [child_process.execSync] act
      on an explicit [World]. *)

From Stdlib Require Import Ascii String List ZArith Bool Lia.
From Stdlib Require Import Sorted Permutation DecimalString.
Import ListNotations.
Open Scope Z_scope.

(** ** JavaScript strings *)

Definition jsstring := list ascii.

(** A string literal of the script. *)
Definition js (s : string) : jsstring := list_ascii_of_string s.

Definition LF : ascii := ascii_of_nat 10.

Module JS.

Definition code (c : ascii) : nat := nat_of_ascii c.

Definition between (lo hi : nat) (c : ascii) : bool :=
  ((lo <=? code c) && (code c <=? hi))%nat.

(** [\s]: WhiteSpace and LineTerminator code units (TAB, LF, VT, FF, CR,
    SP and NBSP; the others are above 255). *)
Definition isWhiteSpace (c : ascii) : bool :=
  between 9 13 c || (code c =? 32)%nat || (code c =? 160)%nat.

(** [[^\s]] *)
Definition notWhiteSpace (c : ascii) : bool := negb (isWhiteSpace c).

(** [[0-9A-F]] under the [i] flag. *)
Definition isHexDigit (c : ascii) : bool :=
  between 48 57 c || between 65 70 c || between 97 102 c.

Fixpoint eqb (a b : jsstring) : bool :=
  match a, b with
  | [], [] => true
  | x :: a', y :: b' => Ascii.eqb x y && eqb a' b'
  | _, _ => false
  end.

(** [Array.prototype.join] on an array of strings. *)
Fixpoint join (sep : jsstring) (parts : list jsstring) : jsstring :=
  match parts with
  | [] => []
  | [p] => p
  | p :: rest => p ++ sep ++ join sep rest
  end.

Fixpoint trimStart (s : jsstring) : jsstring :=
  match s with
  | c :: s' => if isWhiteSpace c then trimStart s' else s
  | [] => []
  end.

Definition trimEnd (s : jsstring) : jsstring := rev (trimStart (rev s)).

Definition trim (s : jsstring) : jsstring := trimEnd (trimStart s).

(** [String.prototype.padStart] with a one-character filler. *)
Definition padStart (targetLength : nat) (fill : ascii) (s : jsstring) : jsstring :=
  repeat fill (targetLength - length s) ++ s.

(** [String.prototype.toUpperCase] on the letters [a]-[z]; every other
    code unit below 128 is its own upper case. *)
Definition upperChar (c : ascii) : ascii :=
  if between 97 122 c then ascii_of_nat (code c - 32) else c.

Definition toUpperCase (s : jsstring) : jsstring := map upperChar s.

(** *** Numbers *)

Inductive number := NaN | Num (z : Z).

Definition digitValue (c : ascii) : Z :=
  if between 48 57 c then Z.of_nat (code c) - 48
  else if between 65 70 c then Z.of_nat (code c) - 55
  else Z.of_nat (code c) - 87.

(** Value of a run of hexadecimal digits, most significant first. *)
Definition hexValue (digits : jsstring) : Z :=
  fold_left (fun acc c => 16 * acc + digitValue c) digits 0.

Fixpoint takeWhile (p : ascii -> bool) (s : jsstring) : jsstring :=
  match s with
  | c :: s' => if p c then c :: takeWhile p s' else []
  | [] => []
  end.

(** [parseInt(string, 16)]: leading white space, a sign and a [0x]
    prefix are skipped, then the longest run of digits is read; [NaN]
    when that run is empty. *)
Definition parseInt16 (s : jsstring) : number :=
  let s := trimStart s in
  let '(sign, s) :=
    match s with
    | c :: s' => if (code c =? 45)%nat then (-1, s')
                 else if (code c =? 43)%nat then (1, s')
                 else (1, s)
    | [] => (1, s)
    end in
  let s :=
    match s with
    | z :: x :: s' =>
        if ((code z =? 48) && ((code x =? 120) || (code x =? 88)))%nat
        then s' else s
    | _ => s
    end in
  match takeWhile isHexDigit s with
  | [] => NaN
  | digits => Num (sign * hexValue digits)
  end.

Definition hexChar (d : Z) : ascii :=
  nth (Z.to_nat d) (js "0123456789abcdef") (ascii_of_nat 48).

Fixpoint hexDigits (fuel : nat) (n : Z) (acc : jsstring) : jsstring :=
  match fuel with
  | O => acc
  | S fuel' =>
      let acc' := hexChar (n mod 16) :: acc in
      if n / 16 =? 0 then acc' else hexDigits fuel' (n / 16) acc'
  end.

(** [Number.prototype.toString(16)] on an integer. *)
Definition toString16 (n : Z) : jsstring :=
  if n <? 0
  then ascii_of_nat 45 :: hexDigits (S (Z.to_nat (Z.log2 (- n)))) (- n) []
  else hexDigits (S (Z.to_nat (Z.log2 n))) n [].

(** Decimal rendering of an array length inside a template literal. *)
Definition toString10 (n : nat) : jsstring :=
  js (NilZero.string_of_uint (Nat.to_uint n)).

(** *** Array.prototype.sort with a comparison function

    The comparison function returns a number; an element goes after
    another one when the result is positive.  For a consistent
    comparison function the sorted array does not depend on the
    algorithm of the engine; insertion keeps equal elements in order, as
    the standard requires. *)
Section Sort.
Variable comparefn : Z -> Z -> Z.

Fixpoint insert (x : Z) (sorted : list Z) : list Z :=
  match sorted with
  | [] => [x]
  | y :: rest => if comparefn x y <=? 0 then x :: sorted
                 else y :: insert x rest
  end.

Fixpoint sort (a : list Z) : list Z :=
  match a with
  | [] => []
  | x :: rest => insert x (sort rest)
  end.
End Sort.

End JS.

(** ** Record parser: [dataRegex] and [matchAll] *)

Module RegExp.
Import JS.

(** A backtracking matcher takes the remaining input and a continuation;
    the continuation receives what was matched and the input after it.
    [None] makes the matcher try its next alternative. *)
Section Backtracking.
Context {R : Type}.

Definition orElse (first second : option R) : option R :=
  match first with
  | Some r => Some r
  | None => second
  end.

(** a literal *)
Fixpoint lit (text : jsstring) (s : jsstring) (k : jsstring -> option R)
  : option R :=
  match text, s with
  | [], _ => k s
  | t :: text', c :: s' => if Ascii.eqb t c then lit text' s' k else None
  | _ :: _, [] => None
  end.

(** [p*], greedy: the longest run first, then shorter ones *)
Fixpoint star (p : ascii -> bool) (s : jsstring)
  (k : jsstring -> jsstring -> option R) : option R :=
  match s with
  | c :: s' =>
      if p c then orElse (star p s' (fun m => k (c :: m))) (k [] s)
      else k [] s
  | [] => k [] s
  end.

(** [p+] *)
Definition plus (p : ascii -> bool) (s : jsstring)
  (k : jsstring -> jsstring -> option R) : option R :=
  match s with
  | c :: s' => if p c then star p s' (fun m => k (c :: m)) else None
  | [] => None
  end.
End Backtracking.

(** [match.groups] of [dataRegex]; [codePointEnd] is [undefined] when
    the optional group did not take part in the match. *)
Record Groups := mkGroups {
  codePointStart : jsstring;
  codePointEnd : option jsstring;
  property : jsstring
}.

(** The pattern
    [(^|\n)(?<codePointStart>[0-9A-F]+)(\.\.(?<codePointEnd>[0-9A-F]+))?\s*;\s*(?<property>[^\s]+)]
    with flags [gi], in three pieces. *)

(** [\s*;\s*(?<property>[^\s]+)], the end of the pattern *)
Definition dataRegex_tail (codePointStart : jsstring)
  (codePointEnd : option jsstring) (s : jsstring)
  : option (Groups * jsstring) :=
  star isWhiteSpace s (fun _ s =>
  lit (js ";") s (fun s =>
  star isWhiteSpace s (fun _ s =>
  plus notWhiteSpace s (fun property s =>
  Some (mkGroups codePointStart codePointEnd property, s))))).

(** [(?<codePointStart>[0-9A-F]+)(\.\.(?<codePointEnd>[0-9A-F]+))?]
    followed by the end of the pattern; the optional group is tried
    first *)
Definition dataRegex_line (s : jsstring) : option (Groups * jsstring) :=
  plus isHexDigit s (fun codePointStart s =>
  orElse
    (lit (js "..") s (fun s =>
     plus isHexDigit s (fun codePointEnd s =>
     dataRegex_tail codePointStart (Some codePointEnd) s)))
    (dataRegex_tail codePointStart None s)).

(** One attempt of the pattern at the position where [s] is the rest of
    the text; [atStart] tells whether that position is index 0, the only
    place where [^] matches (there is no [m] flag).  The result holds
    the groups and the text after the match. *)
Definition dataRegex (atStart : bool) (s : jsstring)
  : option (Groups * jsstring) :=
  orElse (if atStart then dataRegex_line s else None)
         (lit [LF] s dataRegex_line).

(** [RegExp.prototype.exec] with the [g] flag: the first position at or
    after [lastIndex] where the pattern matches.  [s] is the text from
    [lastIndex] on. *)
Fixpoint exec (atStart : bool) (s : jsstring) : option (Groups * jsstring) :=
  orElse (dataRegex atStart s)
         (match s with
          | _ :: s' => exec false s'
          | [] => None
          end).

(** The iteration of [matchAll]: [exec] again from the end of the
    previous match until it fails.  A match of [dataRegex] is never
    empty, so the end of a match is the next [lastIndex]. *)
Fixpoint matchAll_from (fuel : nat) (atStart : bool) (s : jsstring)
  : list Groups :=
  match fuel with
  | O => []
  | S fuel' =>
      match exec atStart s with
      | None => []
      | Some (groups, rest) => groups :: matchAll_from fuel' false rest
      end
  end.

(** [[...propListText.matchAll(dataRegex)].map((match) => match.groups)] *)
Definition matchAll (propListText : jsstring) : list Groups :=
  matchAll_from (S (length propListText)) true propListText.

End RegExp.

Import JS RegExp.

Definition nl : jsstring := [LF].

(** ** Configuration *)

(** [TARGET_PROPERTIES]: the property to search for and the name of the
    table in the output file. *)
Definition TARGET_PROPERTIES : list (jsstring * jsstring) :=
  [ (js "Pattern_Syntax", js "PATTERN_SYNTAX");
    (js "Other_ID_Continue", js "OTHER_ID_CONTINUE");
    (js "Other_ID_Start", js "OTHER_ID_START");
    (js "Pattern_White_Space", js "PATTERN_WHITE_SPACE") ].

(** The template literal of [OUTPUT_FILE_DOC_COMMENT], before [.trim()].
    Code unit 174 is the registered sign. *)
Definition OUTPUT_FILE_DOC_COMMENT_template : jsstring :=
  nl ++
  js "//! This module implements the unicode lookup tables for identifier and pattern syntax." ++ nl ++
  js "//! Version: Unicode 14.0.0" ++ nl ++
  js "//!" ++ nl ++
  js "//! This file is generated by `boa_unicode/build_tables.js`. Please do not modify it directly." ++ nl ++
  js "//!" ++ nl ++
  js "//! More information:" ++ nl ++
  js "//!  - [Unicode" ++ [ascii_of_nat 174] ++ js " Standard Annex #44][uax44]" ++ nl ++
  js "//!" ++ nl ++
  js "//! [uax44]: http://unicode.org/reports/tr44" ++ nl.

Definition OUTPUT_FILE_DOC_COMMENT : jsstring :=
  trim OUTPUT_FILE_DOC_COMMENT_template.

(** ** Table builder *)

(** The body of [for (let cp = codePointStart; cp <= codePointEnd; cp++)]:
    one iteration per unit of fuel, stopped by the guard. *)
Fixpoint forLoop (fuel : nat) (cp codePointEnd : Z) (codePoints : list Z)
  : list Z :=
  match fuel with
  | O => codePoints
  | S fuel' =>
      if cp <=? codePointEnd
      then forLoop fuel' (cp + 1) codePointEnd (codePoints ++ [cp])
      else codePoints
  end.

(** The callback of [reduce]: push every code point of the range.  The
    guard fails at once on [NaN]. *)
Definition pushRange (codePoints : list Z) (range : number * number) : list Z :=
  match range with
  | (Num codePointStart, Num codePointEnd) =>
      forLoop (Z.to_nat (codePointEnd + 1 - codePointStart))
              codePointStart codePointEnd codePoints
  | _ => codePoints
  end.

(** [.filter(({ property }) => property === propertyName)] *)
Definition selectProperty (data : list Groups) (propertyName : jsstring)
  : list Groups :=
  filter (fun g => eqb (property g) propertyName) data.

(** The two [map]s: [codePointEnd ?? codePointStart], then [parseInt]. *)
Definition rangeOf (g : Groups) : number * number :=
  let '(codePointStart, codePointEnd) :=
    (codePointStart g,
     match codePointEnd g with
     | Some e => e
     | None => codePointStart g
     end) in
  (parseInt16 codePointStart, parseInt16 codePointEnd).

Definition ranges (data : list Groups) (propertyName : jsstring)
  : list (number * number) :=
  map rangeOf (selectProperty data propertyName).

(** [(a, b) => a - b] *)
Definition compareFn (a b : Z) : Z := a - b.

(** [codePoints] after [codePoints.sort((a, b) => a - b)]. *)
Definition codePointsOf (data : list Groups) (propertyName : jsstring)
  : list Z :=
  let codePoints := fold_left pushRange (ranges data propertyName) [] in
  sort compareFn codePoints.

(** ** Code generator *)

(** [`'\\u{${cp.toString(16).padStart(4, "0").toUpperCase()}}'`] *)
Definition hexOf (cp : Z) : jsstring :=
  toUpperCase (padStart 4 (ascii_of_nat 48) (toString16 cp)).

Definition charLiteral (cp : Z) : jsstring :=
  js "'\u{" ++ hexOf cp ++ js "}'".

Definition rustTableOf (codePoints : list Z) : jsstring :=
  js "&[" ++ join (js ",") (map charLiteral codePoints) ++ js "]".

Definition rustVariableOf (rustTableName : jsstring) (codePoints : list Z)
  : jsstring :=
  js "pub(crate) static " ++ rustTableName ++ js ": &[char] = "
     ++ rustTableOf codePoints ++ js ";".

(** ** Effects *)

Record World := mkWorld {
  console : list jsstring;            (* lines of console.log, oldest first *)
  disk : list (jsstring * jsstring);  (* path and content, latest write first *)
  writable : bool                     (* whether the file system accepts a write *)
}.

Inductive completion :=
| Returned (w : World)
| Threw (w : World).

Definition console_log (line : jsstring) (w : World) : World :=
  mkWorld (console w ++ [line]) (disk w) (writable w).

(** [fs.writeFileSync]: the whole content of the file is replaced. *)
Definition writeFileSync (file data : jsstring) (w : World) : completion :=
  if writable w
  then Returned (mkWorld (console w)
                         ((file, data) :: filter (fun e => negb (eqb (fst e) file)) (disk w))
                         (writable w))
  else Threw w.

Fixpoint readFile (file : jsstring) (d : list (jsstring * jsstring))
  : option jsstring :=
  match d with
  | [] => None
  | (f, content) :: d' => if eqb f file then Some content else readFile file d'
  end.

(** [Array.prototype.map] with a callback that logs. *)
Fixpoint mapLogging {A B : Type} (f : A -> World -> B * World) (a : list A)
  (w : World) : list B * World :=
  match a with
  | [] => ([], w)
  | x :: rest =>
      let '(y, w1) := f x w in
      let '(ys, w2) := mapLogging f rest w1 in
      (y :: ys, w2)
  end.

(** The callback of [TARGET_PROPERTIES.map]. *)
Definition targetCallback (data : list Groups) (target : jsstring * jsstring)
  (w : World) : jsstring * World :=
  let '(propertyName, rustTableName) := target in
  let codePoints := codePointsOf data propertyName in
  let rustVariable := rustVariableOf rustTableName codePoints in
  let w := console_log (propertyName ++ js ": " ++ toString10 (length codePoints)
                                     ++ js " code points") w in
  (rustVariable, w).

(** [`${OUTPUT_FILE_DOC_COMMENT}\n\n${rustVariables.join("\n\n")}`] *)
Definition rustFileOf (rustVariables : list jsstring) : jsstring :=
  OUTPUT_FILE_DOC_COMMENT ++ nl ++ nl ++ join (nl ++ nl) rustVariables.

Section BuildRustFile.
(** [path.join(__dirname, "./src/tables.rs")], fixed by where the
    script is installed. *)
Variable OUTPUT_FILE : jsstring.
(** [child_process.execSync]: the external command rewrites the world
    or throws. *)
Variable execSync : jsstring -> World -> completion.
(** The list the script maps over; [TARGET_PROPERTIES] in the script. *)
Variable targets : list (jsstring * jsstring).

(** The statements of [buildRustFile] up to and including
    [fs.writeFileSync]. *)
Definition writeStage (propListText : jsstring) (w : World) : completion :=
  let data := matchAll propListText in
  let '(rustVariables, w) := mapLogging (targetCallback data) targets w in
  let rustFile := rustFileOf rustVariables in
  let w := console_log (js "Writing output file...") w in
  writeFileSync OUTPUT_FILE rustFile w.

Definition buildRustFileWith (propListText : jsstring) (w : World)
  : completion :=
  match writeStage propListText w with
  | Threw w => Threw w
  | Returned w =>
      let w := console_log (js "Running rustfmt...") w in
      execSync (js "rustfmt " ++ OUTPUT_FILE) w
  end.
End BuildRustFile.

Definition buildRustFile (OUTPUT_FILE : jsstring)
  (execSync : jsstring -> World -> completion) :=
  buildRustFileWith OUTPUT_FILE execSync TARGET_PROPERTIES.

(** The text handed to [fs.writeFileSync], as a function of the input
    text alone. *)
Definition rustFile (targets : list (jsstring * jsstring))
  (propListText : jsstring) : jsstring :=
  let data := matchAll propListText in
  rustFileOf (map (fun t => rustVariableOf (snd t) (codePointsOf data (fst t)))
                  targets).

(** ** Source fetcher

    The script calls [https.get(PROPLIST_TXT_URL, callback)], registers
    a listener for ["error"] on the request, and inside the callback
    listeners for ["data"] and ["end"] on the response.  The runtime
    then delivers events to these listeners one after the other. *)

Module Fetch.

(** What the runtime can deliver.  A chunk is given as the string that
    [text += chunk] appends for it. *)
Inductive event :=
| response
| data (chunk : jsstring)
| end_
| error (message : jsstring).

(** The variable [text] of the response callback ([None] until the
    callback has run), the world, and whether an exception has left a
    listener uncaught, which ends the process. *)
Record state := mkState {
  text : option jsstring;
  world : World;
  exited : bool
}.

Definition start (w : World) : state := mkState None w false.

Section Listeners.
Variable OUTPUT_FILE : jsstring.
Variable execSync : jsstring -> World -> completion.

(** [(res) => { let text = ""; res.on("data", ...); res.on("end", ...); }] *)
Definition onResponse (st : state) : state :=
  mkState (Some []) (world st) (exited st).

(** [(chunk) => { text += chunk; }] *)
Definition onData (chunk : jsstring) (st : state) : state :=
  match text st with
  | Some t => mkState (Some (t ++ chunk)) (world st) (exited st)
  | None => st
  end.

(** [() => { buildRustFile(text); }] *)
Definition onEnd (st : state) : state :=
  match text st with
  | Some t =>
      match buildRustFile OUTPUT_FILE execSync t (world st) with
      | Returned w => mkState (text st) w false
      | Threw w => mkState (text st) w true
      end
  | None => st
  end.

(** [(err) => { console.log(`Failed to get 'PropList.txt': ${err.message}`); }] *)
Definition onError (message : jsstring) (st : state) : state :=
  mkState (text st)
          (console_log (js "Failed to get 'PropList.txt': " ++ message) (world st))
          (exited st).

(** One event reaches its listener, unless the process has ended. *)
Definition deliver (st : state) (e : event) : state :=
  if exited st then st
  else match e with
       | response => onResponse st
       | data chunk => onData chunk st
       | end_ => onEnd st
       | error message => onError message st
       end.

Definition run (events : list event) (st : state) : state :=
  fold_left deliver events st.
End Listeners.

End Fetch.

(** * Vocabulary of the statements *)

(** [stops p s]: a run of [p] cannot be extended into [s]. *)
Definition stops (p : ascii -> bool) (s : jsstring) : Prop :=
  match s with
  | [] => True
  | c :: _ => p c = false
  end.

Definition nonempty_all (p : ascii -> bool) (s : jsstring) : Prop :=
  s <> [] /\ forallb p s = true.

(** What the pattern guarantees about the groups of any match. *)
Definition wfGroups (g : Groups) : Prop :=
  nonempty_all isHexDigit (codePointStart g)
  /\ match codePointEnd g with
     | Some e => nonempty_all isHexDigit e
     | None => True
     end
  /\ nonempty_all notWhiteSpace (property g).

(** The text a match covers after [(^|\n)]. *)
Definition matchedText (g : Groups) (ws1 ws2 : jsstring) : jsstring :=
  codePointStart g
  ++ match codePointEnd g with
     | Some e => js ".." ++ e
     | None => []
     end
  ++ ws1 ++ js ";" ++ ws2 ++ property g.

(** The iteration from a position, with the fuel [matchAll] gives it. *)
Definition scan (atStart : bool) (s : jsstring) : list Groups :=
  matchAll_from (S (length s)) atStart s.

(** A line of the input, split the way the format
    [<hex>[..<hex>]<ws>;<ws><token>[<ws>#<comment>]] describes it. *)
Inductive Line :=
| RecordLine (hexStart : jsstring) (hexEnd : option jsstring)
             (ws1 ws2 token trailing : jsstring)
| OtherLine (content : jsstring).

Definition noLF (s : jsstring) : bool :=
  forallb (fun c => negb (Ascii.eqb LF c)) s.

Definition stopsb (p : ascii -> bool) (s : jsstring) : bool :=
  match s with
  | [] => true
  | c :: _ => negb (p c)
  end.

Definition nonempty_allb (p : ascii -> bool) (s : jsstring) : bool :=
  negb (eqb s []) && forallb p s.

(** A record line holds a start, an optional end, white space around the
    semicolon, a token, and then nothing or white space followed by
    anything (a comment); any other line does not begin with a
    hexadecimal digit.  Neither contains a line feed. *)
Definition wfLine (l : Line) : bool :=
  match l with
  | RecordLine hexStart hexEnd ws1 ws2 token trailing =>
      nonempty_allb isHexDigit hexStart
      && match hexEnd with
         | Some e => nonempty_allb isHexDigit e
         | None => true
         end
      && forallb isWhiteSpace ws1 && noLF ws1
      && forallb isWhiteSpace ws2 && noLF ws2
      && nonempty_allb notWhiteSpace token
      && stopsb notWhiteSpace trailing && noLF trailing
  | OtherLine content => stopsb isHexDigit content && noLF content
  end.

Definition recordText (hexStart : jsstring) (hexEnd : option jsstring)
  (ws1 ws2 token : jsstring) : jsstring :=
  hexStart
  ++ match hexEnd with
     | Some e => js ".." ++ e
     | None => []
     end
  ++ ws1 ++ js ";" ++ ws2 ++ token.

Definition lineText (l : Line) : jsstring :=
  match l with
  | RecordLine hexStart hexEnd ws1 ws2 token trailing =>
      recordText hexStart hexEnd ws1 ws2 token ++ trailing
  | OtherLine content => content
  end.

(** The text made of the lines, separated by line feeds. *)
Definition textOf (ls : list Line) : jsstring := join nl (map lineText ls).

Definition recordsOf (ls : list Line) : list Groups :=
  flat_map (fun l => match l with
                     | RecordLine hexStart hexEnd _ _ token _ =>
                         [mkGroups hexStart hexEnd token]
                     | OtherLine _ => []
                     end) ls.


(** The lines that follow a first one, each behind its line feed. *)
Definition following (ls : list Line) : jsstring :=
  flat_map (fun l => LF :: lineText l) ls.

Definition hexValueFrom (a : Z) (digits : jsstring) : Z :=
  fold_left (fun acc c => 16 * acc + digitValue c) digits a.

(** [n] consecutive integers from [s] on. *)
Fixpoint run (s : Z) (n : nat) : list Z :=
  match n with
  | O => []
  | S n' => s :: run (s + 1) n'
  end.

(** The integers of the inclusive interval from [s] to [e]. *)
Definition interval (s e : Z) : list Z := run s (Z.to_nat (e + 1 - s)).

(** The code points one range contributes. *)
Definition expansion (range : number * number) : list Z :=
  pushRange [] range.

(** [x] lies in the range. *)
Definition inRange (x : Z) (range : number * number) : Prop :=
  match range with
  | (Num s, Num e) => s <= x <= e
  | _ => False
  end.

(** Ranges that share no integer, taken two by two. *)
Definition nonOverlapping (rs : list (number * number)) : Prop :=
  ForallOrdPairs (fun r1 r2 => forall x, ~ (inRange x r1 /\ inRange x r2)) rs.

(** [[0-9A-F]] and [[0-9a-f]], case sensitive. *)
Definition isUpperHexDigit (c : ascii) : bool :=
  between 48 57 c || between 65 70 c.

Definition isLowerHexDigit (c : ascii) : bool :=
  between 48 57 c || between 97 102 c.

(** The line [targetCallback] logs for a target. *)
Definition logLine (data : list Groups) (target : jsstring * jsstring)
  : jsstring :=
  fst target ++ js ": "
    ++ toString10 (length (codePointsOf data (fst target)))
    ++ js " code points".

(** The input of the first end-to-end scenario. *)
Definition scenario1 : jsstring :=
  js "0041..0043 ; Foo" ++ nl ++ js "0050 ; Foo" ++ nl.








(** A world left by an earlier run: lines on the console and an older
    version of the output file. *)
Definition usedWorld : World :=
  mkWorld [js "Running rustfmt..."]
          [(js "src/tables.rs", js "// stale"); (js "README", js "boa")]
          true.

(** ** Vocabulary of the further properties *)

(** A continuation that accepts whatever it is given and leaves the
    rest of the input as it is. *)
Definition accepting {A : Type}
  (k : jsstring -> jsstring -> option (A * jsstring)) : Prop :=
  forall m r, exists y, k m r = Some (y, r).

(** [before] ends where a line begins: it is empty or ends with a line
    feed. *)
Definition atLineStart (before : jsstring) : Prop :=
  before = [] \/ exists b, before = b ++ [LF].


(** The line the ["error"] listener logs for an event, if any. *)
Definition failureLines (e : Fetch.event) : list jsstring :=
  match e with
  | Fetch.error message => [js "Failed to get 'PropList.txt': " ++ message]
  | _ => []
  end.

Definition isEnd (e : Fetch.event) : bool :=
  match e with
  | Fetch.end_ => true
  | _ => false
  end.


(** The line with the digits of its start and end in upper case. *)
Definition upperHexLine (l : Line) : Line :=
  match l with
  | RecordLine hexStart hexEnd ws1 ws2 token trailing =>
      RecordLine (toUpperCase hexStart) (option_map toUpperCase hexEnd)
                 ws1 ws2 token trailing
  | OtherLine content => OtherLine content
  end.

(** A text whose two ranges overlap. *)
Definition overlappingText : jsstring :=
  js "0041..0043 ; Foo" ++ nl ++ js "0042..0044 ; Foo" ++ nl.


(** * Properties *)

(** ** Character classes *)

Ltac by_cases_on_char c :=
  destruct c as [[] [] [] [] [] [] [] []]; vm_compute; congruence.

Lemma hex_not_space c : isHexDigit c = true -> isWhiteSpace c = false.
Proof. by_cases_on_char c. Qed.

Lemma space_not_hex c : isWhiteSpace c = true -> isHexDigit c = false.
Proof. by_cases_on_char c. Qed.

Lemma hex_not_dot c : isHexDigit c = true -> Ascii.eqb "." c = false.
Proof. by_cases_on_char c. Qed.

Lemma space_not_dot c : isWhiteSpace c = true -> Ascii.eqb "." c = false.
Proof. by_cases_on_char c. Qed.

Lemma space_not_semicolon c : isWhiteSpace c = true -> Ascii.eqb ";" c = false.
Proof. by_cases_on_char c. Qed.

Lemma hex_not_LF c : isHexDigit c = true -> Ascii.eqb LF c = false.
Proof. by_cases_on_char c. Qed.

Lemma isWhiteSpace_LF : isWhiteSpace LF = true.
Proof. reflexivity. Qed.

Lemma eqb_eq a b : eqb a b = true <-> a = b.
Proof.
  revert b; induction a as [|x a IH]; intros [|y b]; simpl;
    try (split; congruence).
  rewrite andb_true_iff, Ascii.eqb_eq, IH. split.
  - intros [-> ->]; reflexivity.
  - intros E; injection E; auto.
Qed.

Lemma eqb_refl a : eqb a a = true.
Proof. apply eqb_eq; reflexivity. Qed.

Ltac app_norm := simpl; repeat (rewrite <- app_assoc; simpl).

(** ** Backtracking matchers *)

Section MatcherLemmas.
Context {R : Type}.
Implicit Types (k : jsstring -> jsstring -> option R) (r : R).

Lemma lit_app text s (k1 : jsstring -> option R) :
  lit text (text ++ s) k1 = k1 s.
Proof.
  induction text as [|t text IH]; simpl; [reflexivity|].
  rewrite Ascii.eqb_refl; exact IH.
Qed.

Lemma lit_inv text s (k1 : jsstring -> option R) r :
  lit text s k1 = Some r -> exists rest, s = text ++ rest /\ k1 rest = Some r.
Proof.
  revert s; induction text as [|t text IH]; intros s H; simpl in H.
  - exists s; auto.
  - destruct s as [|c s]; [discriminate|].
    destruct (Ascii.eqb t c) eqn:E; [|discriminate].
    apply Ascii.eqb_eq in E; subst c.
    destruct (IH _ H) as (rest & -> & Hk). exists rest; auto.
Qed.

(** The greedy run is the whole of [run] when the continuation accepts
    it there. *)
Lemma star_run p run rest k r :
  forallb p run = true -> stops p rest -> k run rest = Some r ->
  star p (run ++ rest) k = Some r.
Proof.
  revert k; induction run as [|c run IH]; intros k Hrun Hstop Hk.
  - destruct rest as [|c rest]; simpl in *; [assumption|].
    rewrite Hstop; assumption.
  - simpl in Hrun; apply andb_true_iff in Hrun as [Hc Hrun].
    simpl; rewrite Hc.
    rewrite (IH (fun m => k (c :: m)) Hrun Hstop Hk); reflexivity.
Qed.

Lemma plus_run p run rest k r :
  run <> [] -> forallb p run = true -> stops p rest ->
  k run rest = Some r -> plus p (run ++ rest) k = Some r.
Proof.
  destruct run as [|c run]; [congruence|]; intros _ Hrun Hstop Hk.
  simpl in Hrun; apply andb_true_iff in Hrun as [Hc Hrun].
  simpl; rewrite Hc.
  exact (star_run p run rest (fun m => k (c :: m)) r Hrun Hstop Hk).
Qed.

Lemma plus_stops p s k : s <> [] -> stops p s -> plus p s k = None.
Proof.
  destruct s as [|c s]; [congruence|]; simpl; intros _ ->; reflexivity.
Qed.

Lemma plus_nil p k : plus p [] k = None.
Proof. reflexivity. Qed.

Lemma star_inv p s k r :
  star p s k = Some r ->
  exists m rest, s = m ++ rest /\ forallb p m = true /\ k m rest = Some r.
Proof.
  revert k; induction s as [|c s IH]; intros k H; simpl in H.
  - exists [], []; auto.
  - destruct (p c) eqn:Hc.
    + destruct (star p s (fun m => k (c :: m))) as [r'|] eqn:E.
      * simpl in H; injection H as ->.
        destruct (IH _ E) as (m & rest & -> & Hm & Hk).
        exists (c :: m), rest; simpl; rewrite Hc, Hm; auto.
      * simpl in H. exists [], (c :: s); auto.
    + exists [], (c :: s); auto.
Qed.

Lemma plus_inv p s k r :
  plus p s k = Some r ->
  exists m rest, s = m ++ rest /\ m <> [] /\ forallb p m = true
                 /\ k m rest = Some r.
Proof.
  destruct s as [|c s]; simpl; [discriminate|].
  destruct (p c) eqn:Hc; [|discriminate]; intros H.
  destruct (star_inv _ _ _ _ H) as (m & rest & -> & Hm & Hk).
  exists (c :: m), rest; simpl; rewrite Hc, Hm; repeat split; auto.
  discriminate.
Qed.
End MatcherLemmas.

(** ** Shape of a match of [dataRegex] *)

Lemma dataRegex_tail_inv cps cpe s g rest :
  dataRegex_tail cps cpe s = Some (g, rest) ->
  exists ws1 ws2 prop,
    g = mkGroups cps cpe prop /\ nonempty_all notWhiteSpace prop
    /\ forallb isWhiteSpace ws1 = true /\ forallb isWhiteSpace ws2 = true
    /\ s = ws1 ++ js ";" ++ ws2 ++ prop ++ rest.
Proof.
  unfold dataRegex_tail; intros H.
  apply star_inv in H as (ws1 & s1 & -> & Hws1 & H).
  apply lit_inv in H as (s2 & -> & H).
  apply star_inv in H as (ws2 & s3 & -> & Hws2 & H).
  apply plus_inv in H as (prop & s4 & -> & Hne & Hprop & H).
  injection H as <- <-.
  exists ws1, ws2, prop; repeat split; auto.
Qed.

Lemma dataRegex_line_inv s g rest :
  dataRegex_line s = Some (g, rest) ->
  wfGroups g /\
  exists ws1 ws2,
    s = matchedText g ws1 ws2 ++ rest
    /\ forallb isWhiteSpace ws1 = true /\ forallb isWhiteSpace ws2 = true.
Proof.
  unfold dataRegex_line; intros H.
  apply plus_inv in H as (cps & s1 & -> & Hne & Hcps & H).
  match type of H with
  | orElse ?a ?b = _ => destruct a as [[g' rest']|] eqn:E
  end; unfold orElse in H.
  - injection H as -> ->.
    apply lit_inv in E as (s2 & -> & E).
    apply plus_inv in E as (cpe & s3 & -> & Hne' & Hcpe & E).
    apply dataRegex_tail_inv in E
      as (ws1 & ws2 & prop & -> & Hprop & Hws1 & Hws2 & ->).
    split; [repeat split; auto; apply Hprop|].
    exists ws1, ws2; unfold matchedText; app_norm; auto.
  - apply dataRegex_tail_inv in H
      as (ws1 & ws2 & prop & -> & Hprop & Hws1 & Hws2 & ->).
    split; [repeat split; auto; apply Hprop|].
    exists ws1, ws2; unfold matchedText; app_norm; auto.
Qed.

Lemma dataRegex_inv atStart s g rest :
  dataRegex atStart s = Some (g, rest) ->
  wfGroups g /\
  exists pre ws1 ws2,
    s = pre ++ matchedText g ws1 ws2 ++ rest
    /\ (pre = [LF] \/ pre = [] /\ atStart = true)
    /\ forallb isWhiteSpace ws1 = true /\ forallb isWhiteSpace ws2 = true.
Proof.
  unfold dataRegex; intros H.
  assert (Hlf : lit [LF] s dataRegex_line = Some (g, rest) ->
          wfGroups g /\ exists pre ws1 ws2,
            s = pre ++ matchedText g ws1 ws2 ++ rest
            /\ (pre = [LF] \/ pre = [] /\ atStart = true)
            /\ forallb isWhiteSpace ws1 = true
            /\ forallb isWhiteSpace ws2 = true).
  { intros H'. apply lit_inv in H' as (s1 & -> & H').
    destruct (dataRegex_line_inv _ _ _ H') as (Hwf & ws1 & ws2 & -> & H1 & H2).
    split; [assumption|]. exists [LF], ws1, ws2; auto. }
  destruct atStart; [|exact (Hlf H)].
  destruct (dataRegex_line s) as [[g' rest']|] eqn:E; unfold orElse in H.
  - injection H as -> ->.
    destruct (dataRegex_line_inv _ _ _ E) as (Hwf & ws1 & ws2 & -> & H1 & H2).
    split; [assumption|]. exists [], ws1, ws2; auto.
  - exact (Hlf H).
Qed.

Lemma matchedText_nonempty g ws1 ws2 :
  wfGroups g -> (0 < length (matchedText g ws1 ws2))%nat.
Proof.
  intros ((Hne & _) & _). unfold matchedText.
  destruct (codePointStart g); [congruence|simpl; lia].
Qed.

Lemma dataRegex_shorter atStart s g rest :
  dataRegex atStart s = Some (g, rest) -> (length rest < length s)%nat.
Proof.
  intros H. apply dataRegex_inv in H as (Hwf & pre & ws1 & ws2 & -> & _).
  rewrite !length_app. pose proof (matchedText_nonempty g ws1 ws2 Hwf). lia.
Qed.

(** ** [exec] and the iteration of [matchAll] *)

Lemma exec_inv atStart s g rest :
  exec atStart s = Some (g, rest) ->
  wfGroups g /\ (length rest < length s)%nat.
Proof.
  revert atStart; induction s as [|c s IH]; intros atStart H; simpl in H.
  - destruct (dataRegex atStart []) as [[g' rest']|] eqn:E;
      unfold orElse in H; [|discriminate].
    injection H as -> ->. split.
    + apply (dataRegex_inv _ _ _ _ E).
    + apply (dataRegex_shorter _ _ _ _ E).
  - destruct (dataRegex atStart (c :: s)) as [[g' rest']|] eqn:E;
      unfold orElse in H.
    + injection H as -> ->. split.
      * apply (dataRegex_inv _ _ _ _ E).
      * apply (dataRegex_shorter _ _ _ _ E).
    + destruct (IH _ H) as [Hwf Hlen]. split; [assumption|simpl; lia].
Qed.

(** Once the fuel exceeds the length of the text the result no longer
    depends on it: the iteration has stopped because [exec] failed. *)
Lemma matchAll_from_fuel f1 f2 atStart s :
  (length s < f1)%nat -> (length s < f2)%nat ->
  matchAll_from f1 atStart s = matchAll_from f2 atStart s.
Proof.
  revert f2 atStart s; induction f1 as [|f1 IH]; intros f2 atStart s H1 H2;
    [lia|].
  destruct f2 as [|f2]; [lia|]. simpl.
  destruct (exec atStart s) as [[g rest]|] eqn:E; [|reflexivity].
  apply exec_inv in E as [_ Hlen]. f_equal. apply IH; lia.
Qed.

Lemma scan_step atStart s :
  scan atStart s =
  match exec atStart s with
  | None => []
  | Some (g, rest) => g :: scan false rest
  end.
Proof.
  unfold scan at 1; cbn [matchAll_from].
  destruct (exec atStart s) as [[g rest]|] eqn:E; [|reflexivity].
  apply exec_inv in E as [_ Hlen]. f_equal.
  unfold scan; apply matchAll_from_fuel; lia.
Qed.

Lemma scan_wf atStart s : Forall wfGroups (scan atStart s).
Proof.
  remember (length s) as n eqn:Hn.
  revert atStart s Hn; induction n as [n IH] using lt_wf_ind;
    intros atStart s ->.
  rewrite scan_step.
  destruct (exec atStart s) as [[g rest]|] eqn:E; [|constructor].
  apply exec_inv in E as [Hwf Hlen].
  constructor; [assumption|]. eapply IH; eauto.
Qed.

Lemma matchAll_wf text : Forall wfGroups (matchAll text).
Proof. apply scan_wf. Qed.

(** ** Lines of the listing *)

Lemma stopsb_stops p s : stopsb p s = true -> stops p s.
Proof.
  destruct s as [|c s]; simpl; [trivial|]. now destruct (p c).
Qed.

Lemma nonempty_allb_spec p s :
  nonempty_allb p s = true -> nonempty_all p s.
Proof.
  unfold nonempty_allb, nonempty_all. rewrite andb_true_iff.
  intros [H1 H2]; split; [|assumption].
  intros ->; discriminate.
Qed.

Lemma stops_app p s rest : s <> [] -> stops p s -> stops p (s ++ rest).
Proof. destruct s; [congruence|auto]. Qed.

Lemma stops_app_nil p s rest : stops p s -> stops p rest -> stops p (s ++ rest).
Proof. destruct s; auto. Qed.

(** A token begins with a character that ends white space; white space
    and [;] end a run of digits. *)
Lemma token_stops_space tok rest :
  nonempty_all notWhiteSpace tok -> stops isWhiteSpace (tok ++ rest).
Proof.
  intros [Hne Hall]. destruct tok as [|c tok]; [congruence|].
  simpl in *. apply andb_true_iff in Hall as [Hc _].
  unfold notWhiteSpace in Hc. now destruct (isWhiteSpace c).
Qed.

Lemma space_semicolon_stops_hex ws rest :
  forallb isWhiteSpace ws = true -> stops isHexDigit (ws ++ js ";" ++ rest).
Proof.
  destruct ws as [|c ws]; simpl; [reflexivity|].
  intros H; apply andb_true_iff in H as [Hc _]. now apply space_not_hex.
Qed.

Lemma dataRegex_tail_run cps cpe ws1 ws2 tok rest :
  forallb isWhiteSpace ws1 = true -> forallb isWhiteSpace ws2 = true ->
  nonempty_all notWhiteSpace tok -> stops notWhiteSpace rest ->
  dataRegex_tail cps cpe (ws1 ++ js ";" ++ ws2 ++ tok ++ rest)
  = Some (mkGroups cps cpe tok, rest).
Proof.
  intros H1 H2 Htok Hrest. unfold dataRegex_tail.
  apply star_run; [assumption|reflexivity|].
  rewrite lit_app.
  apply star_run; [assumption|now apply token_stops_space|].
  apply plus_run; [apply Htok|apply Htok|assumption|reflexivity].
Qed.

Lemma lit_dots_fails {R} ws rest (k : jsstring -> option R) :
  forallb isWhiteSpace ws = true ->
  lit (js "..") (ws ++ js ";" ++ rest) k = None.
Proof.
  destruct ws as [|c ws]; [reflexivity|].
  intros H; simpl in H; apply andb_true_iff in H as [Hc _].
  change (lit (js "..") ((c :: ws) ++ js ";" ++ rest) k)
    with (if Ascii.eqb "." c then lit (js ".") (ws ++ js ";" ++ rest) k
          else None).
  now rewrite (space_not_dot c Hc).
Qed.

Lemma dataRegex_line_run hexStart hexEnd ws1 ws2 tok rest :
  nonempty_all isHexDigit hexStart ->
  match hexEnd with
  | Some e => nonempty_all isHexDigit e
  | None => True
  end ->
  forallb isWhiteSpace ws1 = true -> forallb isWhiteSpace ws2 = true ->
  nonempty_all notWhiteSpace tok -> stops notWhiteSpace rest ->
  dataRegex_line (recordText hexStart hexEnd ws1 ws2 tok ++ rest)
  = Some (mkGroups hexStart hexEnd tok, rest).
Proof.
  intros [Hne Hhex] Hend H1 H2 Htok Hrest.
  unfold dataRegex_line, recordText. rewrite <- !app_assoc.
  destruct hexEnd as [e|].
  - destruct Hend as [Hne' Hhex'].
    apply plus_run; [assumption|assumption|reflexivity|].
    rewrite <- !app_assoc, lit_app.
    rewrite (plus_run isHexDigit e _ _ (mkGroups hexStart (Some e) tok, rest));
      [reflexivity|assumption|assumption| |].
    + now apply space_semicolon_stops_hex.
    + now apply dataRegex_tail_run.
  - rewrite app_nil_l.
    apply plus_run; [assumption|assumption| |].
    + now apply space_semicolon_stops_hex.
    + rewrite lit_dots_fails by assumption.
      simpl orElse. now apply dataRegex_tail_run.
Qed.

Lemma dataRegex_line_stops s : stops isHexDigit s -> dataRegex_line s = None.
Proof.
  unfold dataRegex_line. destruct s as [|c s]; simpl; [reflexivity|].
  now intros ->.
Qed.

(** Without a line feed in front and away from index 0 there is no
    match. *)
Lemma dataRegex_false_stops s :
  stops (Ascii.eqb LF) s -> dataRegex false s = None.
Proof.
  unfold dataRegex. destruct s as [|c s]; simpl; [reflexivity|].
  now intros ->.
Qed.

Lemma exec_skip pre rest :
  noLF pre = true -> exec false (pre ++ rest) = exec false rest.
Proof.
  induction pre as [|c pre IH]; [reflexivity|].
  intros H; apply andb_true_iff in H as [Hc Hpre].
  apply negb_true_iff in Hc.
  change (orElse (dataRegex false (c :: pre ++ rest))
                 (exec false (pre ++ rest)) = exec false rest).
  rewrite dataRegex_false_stops by exact Hc.
  exact (IH Hpre).
Qed.

Lemma exec_true_stops s : stops isHexDigit s -> exec true s = exec false s.
Proof.
  intros H.
  assert (E : dataRegex true s = dataRegex false s)
    by (unfold dataRegex; now rewrite (dataRegex_line_stops _ H)).
  destruct s as [|c s]; [reflexivity|].
  change (orElse (dataRegex true (c :: s)) (exec false s)
          = orElse (dataRegex false (c :: s)) (exec false s)).
  now rewrite E.
Qed.

Lemma exec_here atStart s r : dataRegex atStart s = Some r -> exec atStart s = Some r.
Proof. intros H. destruct s; simpl; now rewrite H. Qed.

Lemma dataRegex_LF atStart s r :
  dataRegex_line s = Some r -> dataRegex atStart (LF :: s) = Some r.
Proof.
  intros H. unfold dataRegex.
  replace (lit [LF] (LF :: s) dataRegex_line) with (Some r)
    by (now rewrite <- H).
  destruct atStart; [|reflexivity].
  now rewrite (dataRegex_line_stops (LF :: s)) by reflexivity.
Qed.

Lemma dataRegex_LF_none atStart s :
  dataRegex_line s = None -> dataRegex atStart (LF :: s) = None.
Proof.
  intros H. unfold dataRegex.
  replace (lit [LF] (LF :: s) dataRegex_line) with (@None (Groups * jsstring))
    by (now rewrite <- H).
  destruct atStart; [|reflexivity].
  now rewrite (dataRegex_line_stops (LF :: s)) by reflexivity.
Qed.

Lemma dataRegex_index0 s r :
  dataRegex_line s = Some r -> dataRegex true s = Some r.
Proof. intros H. unfold dataRegex. now rewrite H. Qed.

Lemma scan_congr b1 s1 b2 s2 :
  exec b1 s1 = exec b2 s2 -> scan b1 s1 = scan b2 s2.
Proof. intros H. rewrite (scan_step b1), (scan_step b2), H. reflexivity. Qed.

Lemma textOf_cons l ls : textOf (l :: ls) = lineText l ++ following ls.
Proof.
  unfold textOf. revert l; induction ls as [|l' ls IH]; intros l; simpl.
  - now rewrite app_nil_r.
  - f_equal. f_equal. apply (IH l').
Qed.

Lemma following_stops_token ls : stops notWhiteSpace (following ls).
Proof. destruct ls; reflexivity. Qed.

Lemma following_stops_hex ls : stops isHexDigit (following ls).
Proof. destruct ls; reflexivity. Qed.

Lemma wfLine_record h1 h2 ws1 ws2 tok trail :
  wfLine (RecordLine h1 h2 ws1 ws2 tok trail) = true ->
  nonempty_all isHexDigit h1
  /\ match h2 with
     | Some e => nonempty_all isHexDigit e
     | None => True
     end
  /\ forallb isWhiteSpace ws1 = true /\ forallb isWhiteSpace ws2 = true
  /\ nonempty_all notWhiteSpace tok
  /\ stops notWhiteSpace trail /\ noLF trail = true.
Proof.
  unfold wfLine. rewrite !andb_true_iff.
  intros ((((((((A & B) & C) & _) & D) & _) & E) & F) & G).
  split; [now apply nonempty_allb_spec|].
  split; [destruct h2; [now apply nonempty_allb_spec|exact I]|].
  split; [assumption|]. split; [assumption|].
  split; [now apply nonempty_allb_spec|].
  split; [now apply stopsb_stops|assumption].
Qed.

Section LineByLine.
Variables (l : Line) (rest : jsstring).
Hypothesis Hl : wfLine l = true.
Hypothesis Hrest_token : stops notWhiteSpace rest.
Hypothesis Hrest_hex : stops isHexDigit rest.

(** What the scan yields on one well-formed line, whatever follows
    it: the record of a record line, nothing for another line. *)
Lemma scan_line_at (atStart : bool) (prefix : jsstring) :
  (prefix = [LF] \/ prefix = [] /\ atStart = true) ->
  scan atStart (prefix ++ lineText l ++ rest)
  = recordsOf [l] ++ scan false rest.
Proof.
  intros Hprefix. destruct l as [h1 h2 ws1 ws2 tok trail|content];
    simpl lineText; simpl recordsOf.
  - apply wfLine_record in Hl
      as (Hh1 & Hend & Hws1 & Hws2 & Htok & Htrail & Hlf).
    assert (Hline : dataRegex_line
              (recordText h1 h2 ws1 ws2 tok ++ trail ++ rest)
              = Some (mkGroups h1 h2 tok, trail ++ rest)).
    { apply dataRegex_line_run; auto.
      apply stops_app_nil; auto. }
    rewrite scan_step, <- app_assoc.
    assert (Hexec : exec atStart
              (prefix ++ recordText h1 h2 ws1 ws2 tok ++ trail ++ rest)
              = Some (mkGroups h1 h2 tok, trail ++ rest)).
    { destruct Hprefix as [->|[-> ->]]; apply exec_here.
      - now apply dataRegex_LF.
      - now apply dataRegex_index0. }
    rewrite Hexec. simpl. f_equal.
    apply scan_congr, exec_skip; assumption.
  - simpl in Hl. apply andb_true_iff in Hl as [Hhex Hlf]. simpl.
    assert (Hstop : stops isHexDigit (content ++ rest))
      by (apply stops_app_nil; auto using stopsb_stops).
    apply scan_congr. rewrite <- (exec_skip content rest Hlf).
    destruct Hprefix as [->|[-> ->]].
    + change (orElse (dataRegex atStart (LF :: content ++ rest))
                     (exec false (content ++ rest))
              = exec false (content ++ rest)).
      now rewrite dataRegex_LF_none by now apply dataRegex_line_stops.
    + now apply exec_true_stops.
Qed.
End LineByLine.

Lemma recordsOf_cons l ls : recordsOf (l :: ls) = recordsOf [l] ++ recordsOf ls.
Proof. unfold recordsOf; simpl. now rewrite app_nil_r. Qed.

Lemma scan_following ls :
  forallb wfLine ls = true -> scan false (following ls) = recordsOf ls.
Proof.
  induction ls as [|l ls IH]; intros H; [reflexivity|].
  simpl in H; apply andb_true_iff in H as [Hl Hls].
  change (following (l :: ls)) with ([LF] ++ lineText l ++ following ls).
  rewrite (scan_line_at l (following ls) Hl (following_stops_token ls)
             (following_stops_hex ls) false [LF]) by auto.
  rewrite (IH Hls). symmetry; apply recordsOf_cons.
Qed.

(** The records parsed from a text of well-formed lines are those of
    its record lines, in order. *)
Lemma matchAll_textOf ls :
  forallb wfLine ls = true -> matchAll (textOf ls) = recordsOf ls.
Proof.
  destruct ls as [|l ls]; intros H; [reflexivity|].
  simpl in H; apply andb_true_iff in H as [Hl Hls].
  rewrite textOf_cons.
  change (matchAll (lineText l ++ following ls))
    with (scan true ([] ++ lineText l ++ following ls)).
  rewrite (scan_line_at l (following ls) Hl (following_stops_token ls)
             (following_stops_hex ls) true []) by auto.
  rewrite (scan_following ls Hls). symmetry; apply recordsOf_cons.
Qed.

(** ** Numbers read from the groups *)

Lemma digitValue_nonneg c : isHexDigit c = true -> 0 <= digitValue c < 16.
Proof. destruct c as [[] [] [] [] [] [] [] []]; vm_compute; intuition congruence. Qed.

Lemma hexValueFrom_nonneg digits a :
  forallb isHexDigit digits = true -> 0 <= a -> 0 <= hexValueFrom a digits.
Proof.
  revert a; induction digits as [|c digits IH]; intros a H Ha;
    [assumption|].
  simpl in H; apply andb_true_iff in H as [Hc H].
  change (0 <= hexValueFrom (16 * a + digitValue c) digits).
  apply IH; [assumption|]. pose proof (digitValue_nonneg c Hc). lia.
Qed.

Lemma hexValue_nonneg digits :
  forallb isHexDigit digits = true -> 0 <= hexValue digits.
Proof. intros H; apply (hexValueFrom_nonneg digits 0 H); lia. Qed.

Lemma takeWhile_all p s : forallb p s = true -> takeWhile p s = s.
Proof.
  induction s as [|c s IH]; simpl; [reflexivity|].
  intros H; apply andb_true_iff in H as [-> H]. now rewrite IH.
Qed.

Lemma hex_not_sign c :
  isHexDigit c = true ->
  (code c =? 45)%nat = false /\ (code c =? 43)%nat = false
  /\ ((code c =? 120) || (code c =? 88))%nat = false.
Proof. destruct c as [[] [] [] [] [] [] [] []]; vm_compute; intuition congruence. Qed.

(** On a group of the pattern [parseInt] reads the whole string. *)
Lemma parseInt16_hex h :
  nonempty_all isHexDigit h -> parseInt16 h = Num (hexValue h).
Proof.
  intros [Hne Hall]. destruct h as [|c h]; [congruence|].
  pose proof Hall as Hall'.
  simpl in Hall; apply andb_true_iff in Hall as [Hc Hh].
  unfold parseInt16. simpl trimStart. rewrite (hex_not_space c Hc).
  destruct (hex_not_sign c Hc) as (-> & -> & _).
  destruct h as [|x h].
  - rewrite (takeWhile_all _ _ Hall'). f_equal. apply Z.mul_1_l.
  - simpl in Hh; apply andb_true_iff in Hh as [Hx _].
    destruct (hex_not_sign x Hx) as (_ & _ & ->).
    rewrite andb_false_r, (takeWhile_all _ _ Hall').
    f_equal. apply Z.mul_1_l.
Qed.

Lemma rangeOf_wf g :
  wfGroups g ->
  exists s e, rangeOf g = (Num s, Num e) /\ 0 <= s /\ 0 <= e
    /\ s = hexValue (codePointStart g).
Proof.
  intros (Hs & He & _). unfold rangeOf.
  rewrite (parseInt16_hex _ Hs).
  destruct (codePointEnd g) as [e|].
  - rewrite (parseInt16_hex _ He).
    exists (hexValue (codePointStart g)), (hexValue e).
    repeat split; apply hexValue_nonneg; [apply Hs|apply He].
  - rewrite (parseInt16_hex _ Hs).
    exists (hexValue (codePointStart g)), (hexValue (codePointStart g)).
    repeat split; apply hexValue_nonneg; apply Hs.
Qed.

(** ** Range expansion *)


Lemma in_run x s n : In x (run s n) <-> s <= x < s + Z.of_nat n.
Proof.
  revert s; induction n as [|n IH]; intros s; simpl run.
  - simpl; lia.
  - simpl In. rewrite IH. lia.
Qed.

Lemma run_sorted s n : StronglySorted Z.lt (run s n).
Proof.
  revert s; induction n as [|n IH]; intros s; simpl; constructor.
  - apply IH.
  - apply Forall_forall; intros x Hx. apply in_run in Hx. lia.
Qed.

Lemma in_interval x s e : In x (interval s e) <-> s <= x <= e.
Proof. unfold interval. rewrite in_run. lia. Qed.


Lemma interval_empty s e : e < s -> interval s e = [].
Proof.
  intros H. unfold interval.
  replace (Z.to_nat (e + 1 - s)) with O by lia. reflexivity.
Qed.

Lemma interval_cons s e : s <= e -> interval s e = s :: interval (s + 1) e.
Proof.
  intros H. unfold interval.
  replace (Z.to_nat (e + 1 - s)) with (S (Z.to_nat (e + 1 - (s + 1)))) by lia.
  reflexivity.
Qed.

(** With fuel for every integer of the interval the loop is stopped by
    its guard, and more fuel changes nothing. *)
Lemma forLoop_interval fuel cp e codePoints :
  (Z.to_nat (e + 1 - cp) <= fuel)%nat ->
  forLoop fuel cp e codePoints = codePoints ++ interval cp e.
Proof.
  revert cp codePoints; induction fuel as [|fuel IH]; intros cp acc H; simpl.
  - rewrite interval_empty by lia. now rewrite app_nil_r.
  - destruct (Z.leb_spec cp e) as [Hle|Hgt].
    + rewrite IH by lia. rewrite (interval_cons cp e Hle).
      now rewrite <- app_assoc.
    + rewrite interval_empty by lia. now rewrite app_nil_r.
Qed.


Lemma pushRange_interval codePoints s e :
  pushRange codePoints (Num s, Num e) = codePoints ++ interval s e.
Proof. unfold pushRange. apply forLoop_interval. lia. Qed.

Lemma pushRange_expansion codePoints range :
  pushRange codePoints range = codePoints ++ expansion range.
Proof.
  unfold expansion. destruct range as [[|s] [|e]];
    try (unfold pushRange; now rewrite app_nil_r).
  rewrite !pushRange_interval. reflexivity.
Qed.

Lemma reduce_expansion rs codePoints :
  fold_left pushRange rs codePoints = codePoints ++ flat_map expansion rs.
Proof.
  revert codePoints; induction rs as [|r rs IH]; intros acc; simpl.
  - now rewrite app_nil_r.
  - rewrite IH, pushRange_expansion. now rewrite <- app_assoc.
Qed.

Lemma in_expansion x range : In x (expansion range) <-> inRange x range.
Proof.
  unfold expansion. destruct range as [[|s] [|e]]; simpl; try tauto.
  change (In x (pushRange [] (Num s, Num e)) <-> s <= x <= e).
  rewrite pushRange_interval. simpl. apply in_interval.
Qed.

Lemma expansion_sorted range : StronglySorted Z.lt (expansion range).
Proof.
  unfold expansion. destruct range as [[|s] [|e]]; try constructor.
  rewrite pushRange_interval. apply run_sorted.
Qed.

Lemma StronglySorted_lt_NoDup l : StronglySorted Z.lt l -> NoDup l.
Proof.
  induction 1 as [|a l _ IH Hall]; constructor; [|assumption].
  intros Hin. rewrite Forall_forall in Hall. specialize (Hall _ Hin). lia.
Qed.

Lemma nonOverlapping_NoDup rs :
  nonOverlapping rs -> NoDup (flat_map expansion rs).
Proof.
  induction 1 as [|r rs Hr _ IH]; simpl; [constructor|].
  apply NoDup_app.
  - apply StronglySorted_lt_NoDup, expansion_sorted.
  - exact IH.
  - intros x Hx Hin. apply in_flat_map in Hin as (r' & Hr' & Hx').
    rewrite Forall_forall in Hr.
    apply (Hr r' Hr' x). split; now apply in_expansion.
Qed.

(** ** Sorting *)

Lemma insert_perm x l : Permutation (insert compareFn x l) (x :: l).
Proof.
  induction l as [|y l IH]; simpl; [reflexivity|].
  destruct (compareFn x y <=? 0); [reflexivity|].
  rewrite IH. apply perm_swap.
Qed.

Lemma sort_perm l : Permutation (sort compareFn l) l.
Proof.
  induction l as [|x l IH]; simpl; [reflexivity|].
  rewrite insert_perm. now constructor.
Qed.

Lemma insert_sorted x l :
  StronglySorted Z.le l -> StronglySorted Z.le (insert compareFn x l).
Proof.
  induction 1 as [|y l Hl IH Hall]; simpl.
  - repeat constructor.
  - unfold compareFn at 1. destruct (Z.leb_spec (x - y) 0) as [Hle|Hgt].
    + constructor; [now constructor|].
      constructor; [lia|].
      rewrite Forall_forall in *. intros z Hz. specialize (Hall z Hz). lia.
    + constructor; [assumption|].
      rewrite Forall_forall in *. intros z Hz.
      apply (Permutation_in _ (insert_perm x l)) in Hz as [<-|Hz];
        [lia|auto].
Qed.

Lemma sort_sorted l : StronglySorted Z.le (sort compareFn l).
Proof.
  induction l as [|x l IH]; simpl; [constructor|]. now apply insert_sorted.
Qed.

Lemma sorted_NoDup_strict l :
  StronglySorted Z.le l -> NoDup l -> StronglySorted Z.lt l.
Proof.
  induction 1 as [|a l Hl IH Hall]; intros Hnd; constructor.
  - apply IH. now inversion Hnd.
  - inversion_clear Hnd as [|? ? Hnotin _].
    rewrite Forall_forall in *. intros z Hz. specialize (Hall z Hz).
    assert (a <> z) by (intros ->; contradiction). lia.
Qed.

(** ** The table of a property *)

Lemma codePointsOf_perm data propertyName :
  Permutation (codePointsOf data propertyName)
              (flat_map expansion (ranges data propertyName)).
Proof.
  unfold codePointsOf. rewrite sort_perm, reduce_expansion. reflexivity.
Qed.

Lemma in_codePointsOf x data propertyName :
  In x (codePointsOf data propertyName) <->
  exists g, In g data /\ property g = propertyName /\ inRange x (rangeOf g).
Proof.
  split.
  - intros H. apply (Permutation_in _ (codePointsOf_perm _ _)) in H.
    apply in_flat_map in H as (r & Hr & Hx).
    unfold ranges in Hr. apply in_map_iff in Hr as (g & <- & Hg).
    unfold selectProperty in Hg. apply filter_In in Hg as [Hg E].
    apply eqb_eq in E. exists g. repeat split; auto. now apply in_expansion.
  - intros (g & Hg & E & Hx).
    apply (Permutation_in _ (Permutation_sym (codePointsOf_perm _ _))).
    apply in_flat_map. exists (rangeOf g). split; [|now apply in_expansion].
    unfold ranges. apply in_map. unfold selectProperty.
    apply filter_In. split; [assumption|now apply eqb_eq].
Qed.

Lemma codePointsOf_sorted data propertyName :
  StronglySorted Z.le (codePointsOf data propertyName).
Proof. apply sort_sorted. Qed.

Lemma codePointsOf_nonneg data propertyName :
  Forall wfGroups data ->
  Forall (fun cp => 0 <= cp) (codePointsOf data propertyName).
Proof.
  intros Hwf. apply Forall_forall. intros x Hx.
  apply in_codePointsOf in Hx as (g & Hg & _ & Hx).
  rewrite Forall_forall in Hwf.
  destruct (rangeOf_wf g (Hwf g Hg)) as (s & e & E & Hs & _).
  rewrite E in Hx. simpl in Hx. lia.
Qed.

(** ** Rendering of a code point *)

Lemma hexChar_spec d :
  0 <= d < 16 ->
  isLowerHexDigit (hexChar d) = true /\ digitValue (hexChar d) = d.
Proof.
  intros H.
  assert (E : d = 0 \/ d = 1 \/ d = 2 \/ d = 3 \/ d = 4 \/ d = 5 \/ d = 6
              \/ d = 7 \/ d = 8 \/ d = 9 \/ d = 10 \/ d = 11 \/ d = 12
              \/ d = 13 \/ d = 14 \/ d = 15) by lia.
  repeat (destruct E as [->|E]; [split; reflexivity|]).
  subst d; split; reflexivity.
Qed.

Lemma upperChar_spec c :
  isLowerHexDigit c = true ->
  isUpperHexDigit (upperChar c) = true
  /\ digitValue (upperChar c) = digitValue c.
Proof. destruct c as [[] [] [] [] [] [] [] []]; vm_compute; intuition congruence. Qed.

Lemma hexValueFrom_app a s1 s2 :
  hexValueFrom a (s1 ++ s2) = hexValueFrom (hexValueFrom a s1) s2.
Proof. apply fold_left_app. Qed.

Lemma hexDigits_S fuel n acc :
  hexDigits (S fuel) n acc =
  if n / 16 =? 0 then hexChar (n mod 16) :: acc
  else hexDigits fuel (n / 16) (hexChar (n mod 16) :: acc).
Proof. reflexivity. Qed.

(** The digits [hexDigits] puts in front of [acc]: they spell [n], and
    there is no leading zero unless [n] has a single digit. *)
Lemma hexDigits_spec fuel n acc :
  0 <= n < 16 ^ Z.of_nat (S fuel) ->
  exists ds,
    hexDigits (S fuel) n acc = ds ++ acc
    /\ (1 <= length ds)%nat
    /\ forallb isLowerHexDigit ds = true
    /\ (forall a, hexValueFrom a ds = a * 16 ^ Z.of_nat (length ds) + n)
    /\ (length ds = 1%nat \/ 16 ^ (Z.of_nat (length ds) - 1) <= n).
Proof.
  revert n acc; induction fuel as [|fuel IH]; intros n acc Hn.
  - assert (E : n / 16 = 0) by (apply Z.div_small; simpl in Hn; lia).
    assert (Hmod : n mod 16 = n) by (apply Z.mod_small; simpl in Hn; lia).
    exists [hexChar (n mod 16)].
    rewrite hexDigits_S, E. cbn [Z.eqb]. rewrite Hmod.
    destruct (hexChar_spec n) as [Hlow Hval]; [simpl in Hn; lia|].
    repeat split; auto.
    + simpl. now rewrite Hlow.
    + intros a. unfold hexValueFrom. cbn [fold_left length].
      rewrite Hval. change (16 ^ Z.of_nat 1) with 16. lia.
  - pose proof (Z.mod_pos_bound n 16 ltac:(lia)) as Hmod.
    destruct (hexChar_spec (n mod 16) Hmod) as [Hlow Hval].
    rewrite hexDigits_S.
    destruct (Z.eqb_spec (n / 16) 0) as [E|E].
    + exists [hexChar (n mod 16)].
      assert (n mod 16 = n) by (pose proof (Z.div_mod n 16); lia).
      repeat split; auto.
      * simpl. now rewrite Hlow.
      * intros a. unfold hexValueFrom. cbn [fold_left length].
        rewrite Hval. change (16 ^ Z.of_nat 1) with 16. lia.
    + assert (Hdiv : 0 <= n / 16 < 16 ^ Z.of_nat (S fuel)).
      { split; [apply Z.div_pos; lia|].
        apply Z.div_lt_upper_bound; [lia|].
        replace (Z.of_nat (S (S fuel))) with (1 + Z.of_nat (S fuel)) in Hn
          by lia.
        rewrite Z.pow_add_r in Hn by lia. lia. }
      destruct (IH (n / 16) (hexChar (n mod 16) :: acc) Hdiv)
        as (ds & Eq & Hlen & Hall & Hv & Hmin).
      exists (ds ++ [hexChar (n mod 16)]).
      split; [rewrite Eq, <- app_assoc; reflexivity|].
      split; [rewrite length_app; cbn [length]; lia|].
      split; [rewrite forallb_app, Hall; simpl; now rewrite Hlow|].
      assert (Hlen' : Z.of_nat (length (ds ++ [hexChar (n mod 16)]))
                      = 1 + Z.of_nat (length ds))
        by (rewrite length_app; cbn [length]; lia).
      pose proof (Z.div_mod n 16 ltac:(lia)) as Hdm.
      split.
      * intros a. rewrite hexValueFrom_app, Hv, Hlen'.
        unfold hexValueFrom. cbn [fold_left]. rewrite Hval.
        rewrite Z.pow_add_r by lia. lia.
      * right. rewrite Hlen'.
        replace (1 + Z.of_nat (length ds) - 1)
          with (1 + (Z.of_nat (length ds) - 1)) by lia.
        rewrite Z.pow_add_r by lia.
        assert (1 <= n / 16) by (pose proof (Z.div_pos n 16); lia).
        destruct Hmin as [H1|Hmin].
        -- rewrite H1. simpl. lia.
        -- change (16 ^ 1) with 16. lia.
Qed.

Lemma log2_fuel n : 0 <= n -> n < 16 ^ Z.of_nat (S (Z.to_nat (Z.log2 n))).
Proof.
  intros Hn. destruct (Z.eq_dec n 0) as [->|Hpos]; [reflexivity|].
  pose proof (Z.log2_nonneg n) as Hlog.
  pose proof (Z.log2_spec n ltac:(lia)) as [_ Hup].
  replace (Z.of_nat (S (Z.to_nat (Z.log2 n)))) with (Z.succ (Z.log2 n)) by lia.
  eapply Z.lt_le_trans; [exact Hup|].
  apply Z.pow_le_mono_l. lia.
Qed.

Lemma toString16_spec n :
  0 <= n ->
  (1 <= length (toString16 n))%nat
  /\ forallb isLowerHexDigit (toString16 n) = true
  /\ hexValue (toString16 n) = n
  /\ (length (toString16 n) = 1%nat
      \/ 16 ^ (Z.of_nat (length (toString16 n)) - 1) <= n).
Proof.
  intros Hn. unfold toString16.
  destruct (Z.ltb_spec n 0) as [|_]; [lia|].
  destruct (hexDigits_spec (Z.to_nat (Z.log2 n)) n [])
    as (ds & Eq & Hlen & Hall & Hv & Hmin).
  { split; [assumption|now apply log2_fuel]. }
  rewrite Eq, app_nil_r. repeat split; auto.
  change (hexValue ds) with (hexValueFrom 0 ds). rewrite Hv. lia.
Qed.

Lemma hexValueFrom_zeros k s :
  hexValueFrom 0 (repeat (ascii_of_nat 48) k ++ s) = hexValueFrom 0 s.
Proof.
  induction k as [|k IH]; [reflexivity|]. exact IH.
Qed.

Lemma hexValueFrom_upper a s :
  forallb isLowerHexDigit s = true ->
  hexValueFrom a (toUpperCase s) = hexValueFrom a s.
Proof.
  revert a; induction s as [|c s IH]; intros a H; [reflexivity|].
  simpl in H; apply andb_true_iff in H as [Hc H].
  change (hexValueFrom (16 * a + digitValue (upperChar c)) (toUpperCase s)
          = hexValueFrom (16 * a + digitValue c) s).
  destruct (upperChar_spec c Hc) as [_ ->]. now apply IH.
Qed.

Lemma toUpperCase_upper s :
  forallb isLowerHexDigit s = true ->
  forallb isUpperHexDigit (toUpperCase s) = true.
Proof.
  induction s as [|c s IH]; intros H; [reflexivity|].
  simpl in H; apply andb_true_iff in H as [Hc H].
  change (isUpperHexDigit (upperChar c)
          && forallb isUpperHexDigit (toUpperCase s) = true).
  destruct (upperChar_spec c Hc) as [-> _]. now apply IH.
Qed.

(** The digits between the braces of a literal: upper-case hexadecimal,
    at least four of them, exactly four below 0x10000, spelling the code
    point. *)
Lemma hexOf_spec cp :
  0 <= cp ->
  (4 <= length (hexOf cp))%nat
  /\ forallb isUpperHexDigit (hexOf cp) = true
  /\ hexValue (hexOf cp) = cp
  /\ (cp < 65536 -> length (hexOf cp) = 4%nat).
Proof.
  intros Hcp.
  destruct (toString16_spec cp Hcp) as (Hlen & Hlow & Hval & Hmin).
  unfold hexOf, padStart, toUpperCase.
  rewrite length_map, length_app, repeat_length.
  assert (Hpad : forallb isLowerHexDigit
            (repeat (ascii_of_nat 48) (4 - length (toString16 cp))
             ++ toString16 cp) = true).
  { rewrite forallb_app, Hlow, andb_true_r.
    generalize (4 - length (toString16 cp))%nat.
    intros k; induction k; simpl; auto. }
  split; [lia|].
  split; [now apply toUpperCase_upper|].
  split.
  - change (hexValueFrom 0
              (toUpperCase (repeat (ascii_of_nat 48)
                              (4 - length (toString16 cp)) ++ toString16 cp))
            = cp).
    rewrite hexValueFrom_upper by assumption.
    rewrite hexValueFrom_zeros. exact Hval.
  - intros Hsmall.
    assert (length (toString16 cp) <= 4)%nat; [|lia].
    destruct Hmin as [->|Hmin]; [lia|].
    destruct (Nat.le_gt_cases (length (toString16 cp)) 4) as [|Hbig];
      [assumption|].
    assert (16 ^ 4 <= 16 ^ (Z.of_nat (length (toString16 cp)) - 1))
      by (apply Z.pow_le_mono_r; lia).
    change (16 ^ 4) with 65536 in *. lia.
Qed.

(** ** The write stage *)

Lemma mapLogging_targets data targets w :
  mapLogging (targetCallback data) targets w =
  (map (fun t => rustVariableOf (snd t) (codePointsOf data (fst t))) targets,
   mkWorld (console w ++ map (logLine data) targets) (disk w) (writable w)).
Proof.
  revert w; induction targets as [|[propertyName rustTableName] targets IH];
    intros w.
  - simpl. rewrite app_nil_r. now destruct w.
  - cbn [mapLogging targetCallback]. rewrite IH.
    unfold console_log; cbn [console disk writable map fst snd].
    rewrite <- app_assoc. reflexivity.
Qed.

(** What [fs.writeFileSync] is called with, and in which world. *)
Lemma writeStage_eq OUTPUT_FILE targets text w :
  writeStage OUTPUT_FILE targets text w =
  writeFileSync OUTPUT_FILE (rustFile targets text)
    (console_log (js "Writing output file...")
       (mkWorld (console w ++ map (logLine (matchAll text)) targets)
                (disk w) (writable w))).
Proof. unfold writeStage. now rewrite mapLogging_targets. Qed.

Lemma readFile_written file data w :
  writable w = true ->
  exists w', writeFileSync file data w = Returned w'
             /\ readFile file (disk w') = Some data
             /\ console w' = console w.
Proof.
  intros H. unfold writeFileSync. rewrite H.
  eexists; split; [reflexivity|]. simpl. now rewrite eqb_refl.
Qed.

Lemma writeStage_returns OUTPUT_FILE targets text w :
  writable w = true ->
  exists w', writeStage OUTPUT_FILE targets text w = Returned w'
             /\ readFile OUTPUT_FILE (disk w') = Some (rustFile targets text).
Proof.
  intros H. rewrite writeStage_eq.
  destruct (readFile_written OUTPUT_FILE (rustFile targets text)
              (console_log (js "Writing output file...")
                 (mkWorld (console w ++ map (logLine (matchAll text)) targets)
                          (disk w) (writable w))) H)
    as (w' & E & Hread & _).
  exists w'; auto.
Qed.

(** After the write the script logs once more and hands the command
    line of the formatter to [child_process.execSync]; a write that
    throws ends the run before that. *)
Lemma buildRustFileWith_formats OUTPUT_FILE execSync targets text w :
  writable w = true ->
  exists w', writeStage OUTPUT_FILE targets text w = Returned w'
    /\ buildRustFileWith OUTPUT_FILE execSync targets text w
       = execSync (js "rustfmt " ++ OUTPUT_FILE)
                  (console_log (js "Running rustfmt...") w').
Proof.
  intros H.
  destruct (writeStage_returns OUTPUT_FILE targets text w H) as (w' & E & _).
  exists w'. split; [exact E|].
  unfold buildRustFileWith. now rewrite E.
Qed.

Lemma buildRustFileWith_write_throws OUTPUT_FILE execSync targets text w :
  writable w = false ->
  exists w', buildRustFileWith OUTPUT_FILE execSync targets text w = Threw w'
             /\ disk w' = disk w.
Proof.
  intros H. unfold buildRustFileWith. rewrite writeStage_eq.
  unfold writeFileSync, console_log; cbn [writable]. rewrite H.
  eexists; split; reflexivity.
Qed.

(** * The claims *)

(** C1.  On the text ["0041..0043 ; Foo\n0050 ; Foo\n"] with the single
    target (Foo, FOO_TABLE) the parser finds the two records, the table
    builder yields 0x41, 0x42, 0x43, 0x50, and the document handed to
    [fs.writeFileSync] declares FOO_TABLE with these four literals. *)
Theorem C1_scenario_foo_table :
  matchAll scenario1
  = [ mkGroups (js "0041") (Some (js "0043")) (js "Foo");
      mkGroups (js "0050") None (js "Foo") ]
  /\ codePointsOf (matchAll scenario1) (js "Foo") = [0x41; 0x42; 0x43; 0x50]
  /\ forall OUTPUT_FILE w,
       writeStage OUTPUT_FILE [(js "Foo", js "FOO_TABLE")] scenario1 w
       = writeFileSync OUTPUT_FILE
           (OUTPUT_FILE_DOC_COMMENT ++ nl ++ nl
            ++ js "pub(crate) static FOO_TABLE: &[char] = &['\u{0041}','\u{0042}','\u{0043}','\u{0050}'];")
           (console_log (js "Writing output file...")
              (console_log (js "Foo: 4 code points") w)).
Proof.
  split; [vm_compute; reflexivity|].
  split; [vm_compute; reflexivity|].
  intros OUTPUT_FILE w. rewrite writeStage_eq.
  assert (Hdoc : rustFile [(js "Foo", js "FOO_TABLE")] scenario1
    = OUTPUT_FILE_DOC_COMMENT ++ nl ++ nl
      ++ js "pub(crate) static FOO_TABLE: &[char] = &['\u{0041}','\u{0042}','\u{0043}','\u{0050}'];")
    by (vm_compute; reflexivity).
  assert (Hlog : map (logLine (matchAll scenario1)) [(js "Foo", js "FOO_TABLE")]
    = [js "Foo: 4 code points"]) by (vm_compute; reflexivity).
  rewrite Hdoc, Hlog. reflexivity.
Qed.






(** C3.  For every property name, configured or not, if the ranges of
    the records the input holds for it share no code point two by two,
    then the table built for it is strictly increasing: every entry is
    below all the later ones, so no entry occurs twice. *)
Theorem C3_table_strictly_increasing (text propertyName : jsstring) :
  nonOverlapping (ranges (matchAll text) propertyName) ->
  StronglySorted Z.lt (codePointsOf (matchAll text) propertyName)
  /\ Sorted Z.lt (codePointsOf (matchAll text) propertyName)
  /\ NoDup (codePointsOf (matchAll text) propertyName).
Proof.
  intros H.
  assert (Hnd : NoDup (codePointsOf (matchAll text) propertyName)).
  { apply (Permutation_NoDup
             (Permutation_sym (codePointsOf_perm (matchAll text) propertyName))).
    now apply nonOverlapping_NoDup. }
  assert (Hs : StronglySorted Z.lt (codePointsOf (matchAll text) propertyName))
    by (apply sorted_NoDup_strict; [apply codePointsOf_sorted|exact Hnd]).
  split; [exact Hs|]. split; [now apply StronglySorted_Sorted|exact Hnd].
Qed.

(** C3 on the first scenario: the ranges 0x41-0x43 and 0x50-0x50 of
    Foo do not overlap. *)
Lemma C3_table_strictly_increasing_witness :
  nonOverlapping (ranges (matchAll scenario1) (js "Foo"))
  /\ StronglySorted Z.lt (codePointsOf (matchAll scenario1) (js "Foo"))
  /\ Sorted Z.lt (codePointsOf (matchAll scenario1) (js "Foo"))
  /\ NoDup (codePointsOf (matchAll scenario1) (js "Foo")).
Proof.
  assert (H : nonOverlapping (ranges (matchAll scenario1) (js "Foo"))).
  { change (nonOverlapping [(Num 0x41, Num 0x43); (Num 0x50, Num 0x50)]).
    repeat constructor. simpl. lia. }
  split; [exact H|].
  exact (C3_table_strictly_increasing scenario1 (js "Foo") H).
Defined.

(** ** Decorated and other lines *)











(** ** Documents *)








(** C8.  In the declaration of every table the literals are those of
    the entries of the table, comma separated, in the order of the
    table, which is ascending; and each literal is the code point in
    the escaped form ['\u{...}'] whose digits are upper-case
    hexadecimal, spell the code point, and are zero-padded to four (at
    least four digits, exactly four below 0x10000). *)
Theorem C8_literals_ascending_padded_uppercase (text propertyName : jsstring) :
  let table := codePointsOf (matchAll text) propertyName in
  rustTableOf table = js "&[" ++ join (js ",") (map charLiteral table) ++ js "]"
  /\ StronglySorted Z.le table
  /\ Forall (fun cp =>
       exists digits,
         charLiteral cp = js "'\u{" ++ digits ++ js "}'"
         /\ (4 <= length digits)%nat
         /\ forallb isUpperHexDigit digits = true
         /\ hexValue digits = cp
         /\ (cp < 0x10000 -> length digits = 4%nat)) table.
Proof.
  intros table.
  split; [reflexivity|]. split; [apply codePointsOf_sorted|].
  pose proof (codePointsOf_nonneg (matchAll text) propertyName
                (matchAll_wf text)) as Hnn.
  apply Forall_forall. intros cp Hcp.
  rewrite Forall_forall in Hnn. specialize (Hnn cp Hcp).
  destruct (hexOf_spec cp Hnn) as (H4 & Hup & Hval & Hexact).
  exists (hexOf cp). repeat split; auto.
Qed.






(** * Further properties *)

(** ** Where a record comes from *)

Section GreedyTotal.
Context {A : Type}.

Lemma star_accepting p s (k : jsstring -> jsstring -> option (A * jsstring)) :
  accepting k -> exists y rest, star p s k = Some (y, rest) /\ stops p rest.
Proof.
  revert k; induction s as [|c s IH]; intros k Hk.
  - destruct (Hk [] []) as (y & E). exists y, []. simpl. now rewrite E.
  - simpl. destruct (p c) eqn:Hc.
    + destruct (IH (fun m => k (c :: m))) as (y & rest & E & Hstop).
      { intros m r. apply Hk. }
      exists y, rest. now rewrite E.
    + destruct (Hk [] (c :: s)) as (y & E). exists y, (c :: s).
      rewrite E. split; [reflexivity|exact Hc].
Qed.

Lemma plus_accepting_stops p s
  (k : jsstring -> jsstring -> option (A * jsstring)) y rest :
  accepting k -> plus p s k = Some (y, rest) -> stops p rest.
Proof.
  intros Hk H. destruct s as [|c s]; simpl in H; [discriminate|].
  destruct (p c); [|discriminate].
  destruct (star_accepting p s (fun m => k (c :: m))) as (y' & rest' & E & Hstop).
  { intros m r. apply Hk. }
  rewrite E in H. now injection H as _ <-.
Qed.
End GreedyTotal.

Lemma dataRegex_tail_stops cps cpe s g rest :
  dataRegex_tail cps cpe s = Some (g, rest) -> stops notWhiteSpace rest.
Proof.
  unfold dataRegex_tail; intros H.
  apply star_inv in H as (ws1 & s1 & -> & _ & H).
  apply lit_inv in H as (s2 & -> & H).
  apply star_inv in H as (ws2 & s3 & -> & _ & H).
  eapply plus_accepting_stops; [|exact H].
  intros m r. eexists; reflexivity.
Qed.

Lemma dataRegex_line_stops_after s g rest :
  dataRegex_line s = Some (g, rest) -> stops notWhiteSpace rest.
Proof.
  unfold dataRegex_line; intros H.
  apply plus_inv in H as (cps & s1 & -> & _ & _ & H).
  match type of H with
  | orElse ?a ?b = _ => destruct a as [[g' rest']|] eqn:E
  end; unfold orElse in H.
  - injection H as -> ->.
    apply lit_inv in E as (s2 & -> & E).
    apply plus_inv in E as (cpe & s3 & -> & _ & _ & E).
    now apply dataRegex_tail_stops in E.
  - now apply dataRegex_tail_stops in H.
Qed.

Lemma dataRegex_stops_after atStart s g rest :
  dataRegex atStart s = Some (g, rest) -> stops notWhiteSpace rest.
Proof.
  unfold dataRegex; intros H.
  assert (Hlf : lit [LF] s dataRegex_line = Some (g, rest) ->
                stops notWhiteSpace rest).
  { intros H'. apply lit_inv in H' as (s1 & -> & H').
    now apply dataRegex_line_stops_after in H'. }
  destruct atStart; [|exact (Hlf H)].
  destruct (dataRegex_line s) as [[g' rest']|] eqn:E; unfold orElse in H.
  - injection H as -> ->. now apply dataRegex_line_stops_after in E.
  - exact (Hlf H).
Qed.

(** Where [exec] finds its match: after some skipped text, behind a
    line feed or at index 0. *)
Lemma exec_position atStart s g rest :
  exec atStart s = Some (g, rest) ->
  exists skipped pre ws1 ws2,
    s = skipped ++ pre ++ matchedText g ws1 ws2 ++ rest
    /\ (pre = [LF] \/ pre = [] /\ skipped = [] /\ atStart = true)
    /\ forallb isWhiteSpace ws1 = true /\ forallb isWhiteSpace ws2 = true
    /\ stops notWhiteSpace rest.
Proof.
  revert atStart; induction s as [|c s IH]; intros atStart H.
  - simpl in H.
    destruct (dataRegex atStart []) as [[g' rest']|] eqn:E;
      unfold orElse in H; [|discriminate].
    injection H as -> ->.
    pose proof (dataRegex_stops_after _ _ _ _ E) as Hstop.
    apply dataRegex_inv in E as (_ & pre & ws1 & ws2 & E & Hpre & H1 & H2).
    exists [], pre, ws1, ws2. repeat split; auto.
    destruct Hpre as [->|[-> ->]]; auto.
  - change (orElse (dataRegex atStart (c :: s)) (exec false s)
            = Some (g, rest)) in H.
    destruct (dataRegex atStart (c :: s)) as [[g' rest']|] eqn:E;
      unfold orElse in H.
    + injection H as -> ->.
      pose proof (dataRegex_stops_after _ _ _ _ E) as Hstop.
      apply dataRegex_inv in E as (_ & pre & ws1 & ws2 & E & Hpre & H1 & H2).
      exists [], pre, ws1, ws2. repeat split; auto.
      destruct Hpre as [->|[-> ->]]; auto.
    + destruct (IH _ H)
        as (skipped & pre & ws1 & ws2 & -> & Hpre & H1 & H2 & Hstop).
      exists (c :: skipped), pre, ws1, ws2. repeat split; auto.
      destruct Hpre as [->|(_ & _ & Hfalse)]; [now left|discriminate].
Qed.

Lemma scan_position n :
  forall atStart s prefix g,
    length s = n -> (atStart = true -> prefix = []) ->
    In g (scan atStart s) ->
    exists before ws1 ws2 after,
      prefix ++ s = before ++ matchedText g ws1 ws2 ++ after
      /\ atLineStart before
      /\ forallb isWhiteSpace ws1 = true /\ forallb isWhiteSpace ws2 = true
      /\ stops notWhiteSpace after.
Proof.
  induction n as [n IH] using lt_wf_ind.
  intros atStart s prefix g Hn Hprefix Hin.
  rewrite scan_step in Hin.
  destruct (exec atStart s) as [[g0 rest]|] eqn:E; [|destruct Hin].
  pose proof (exec_inv _ _ _ _ E) as [_ Hlen].
  destruct (exec_position _ _ _ _ E)
    as (skipped & pre & ws1 & ws2 & Hs & Hpre & H1 & H2 & Hstop).
  destruct Hin as [<-|Hin].
  - exists (prefix ++ skipped ++ pre), ws1, ws2, rest.
    split; [rewrite Hs, <- !app_assoc; reflexivity|].
    split; [|auto].
    destruct Hpre as [->|(-> & -> & Hb)].
    + right. exists (prefix ++ skipped). now rewrite <- app_assoc.
    + left. now rewrite (Hprefix Hb).
  - destruct (IH (length rest) ltac:(lia) false rest
                (prefix ++ skipped ++ pre ++ matchedText g0 ws1 ws2) g
                eq_refl ltac:(discriminate) Hin)
      as (before & ws1' & ws2' & after & Eq & Hb & H1' & H2' & Hstop').
    exists before, ws1', ws2', after. split; [|auto].
    rewrite <- Eq, Hs, <- !app_assoc. reflexivity.
Qed.

(** X1.  Every record the parser returns is written in the text: the
    text holds, at index 0 or right behind a line feed, the start, the
    [..] and the end when the record has one, white space, the
    semicolon, white space and the property, and the property is not
    cut short: what follows it is the end of the text or white space. *)
Theorem X1_record_found_at_line_start (text : jsstring) (g : Groups) :
  In g (matchAll text) ->
  exists before ws1 ws2 after,
    text = before ++ matchedText g ws1 ws2 ++ after
    /\ atLineStart before
    /\ forallb isWhiteSpace ws1 = true /\ forallb isWhiteSpace ws2 = true
    /\ stops notWhiteSpace after.
Proof.
  intros H.
  exact (scan_position (length text) true text [] g eq_refl (fun _ => eq_refl) H).
Qed.

(** X1 at the second record of the first scenario. *)
Lemma X1_record_found_witness :
  In (mkGroups (js "0050") None (js "Foo")) (matchAll scenario1)
  /\ exists before ws1 ws2 after,
       scenario1
       = before ++ matchedText (mkGroups (js "0050") None (js "Foo")) ws1 ws2
                ++ after
       /\ atLineStart before
       /\ forallb isWhiteSpace ws1 = true /\ forallb isWhiteSpace ws2 = true
       /\ stops notWhiteSpace after.
Proof.
  assert (H : In (mkGroups (js "0050") None (js "Foo")) (matchAll scenario1))
    by (right; left; reflexivity).
  split; [exact H|].
  exact (X1_record_found_at_line_start scenario1 _ H).
Defined.


(** X3.  The iteration of [matchAll] stops by itself: with any fuel
    above the length of the text it returns the records [matchAll]
    returns, and there are at most a third as many records as
    characters. *)
Theorem X3_matchAll_fuel_and_size (text : jsstring) (fuel : nat) :
  (length text < fuel)%nat ->
  matchAll_from fuel true text = matchAll text
  /\ (3 * length (matchAll text) <= length text)%nat.
Proof.
  intros Hfuel. split; [apply matchAll_from_fuel; lia|].
  change (matchAll text) with (scan true text).
  generalize true.
  remember (length text) as n eqn:Hn. clear Hfuel.
  revert text Hn; induction n as [n IH] using lt_wf_ind; intros text -> b.
  rewrite scan_step.
  destruct (exec b text) as [[g rest]|] eqn:E; [|simpl; lia].
  pose proof (exec_inv _ _ _ _ E) as [Hwf Hlen].
  destruct (exec_position _ _ _ _ E)
    as (skipped & pre & ws1 & ws2 & Hs & _).
  specialize (IH (length rest) Hlen rest eq_refl false).
  assert (Hm : (3 <= length (matchedText g ws1 ws2))%nat).
  { destruct Hwf as ((Hne & _) & _ & (Hne' & _)). unfold matchedText.
    rewrite !length_app.
    destruct (codePointStart g); [congruence|].
    destruct (property g); [congruence|]. simpl. lia. }
  rewrite Hs, !length_app. simpl length. lia.
Qed.

Lemma X3_matchAll_fuel_and_size_witness :
  (length scenario1 < 100)%nat
  /\ matchAll_from 100 true scenario1 = matchAll scenario1
  /\ (3 * length (matchAll scenario1) <= length scenario1)%nat.
Proof.
  assert (H : (length scenario1 < 100)%nat) by (vm_compute; lia).
  split; [exact H|]. exact (X3_matchAll_fuel_and_size scenario1 100 H).
Defined.

(** ** What a table holds *)

Lemma sorted_perm_unique l1 :
  forall l2, StronglySorted Z.le l1 -> StronglySorted Z.le l2 ->
             Permutation l1 l2 -> l1 = l2.
Proof.
  induction l1 as [|a l1 IH]; intros l2 H1 H2 HP.
  - now apply Permutation_nil in HP.
  - destruct l2 as [|b l2];
      [apply Permutation_sym, Permutation_nil in HP; discriminate|].
    apply StronglySorted_inv in H1 as [H1 Ha].
    apply StronglySorted_inv in H2 as [H2 Hb].
    rewrite Forall_forall in Ha, Hb.
    assert (E : a = b).
    { assert (Hab : In a (b :: l2))
        by (apply (Permutation_in _ HP); now left).
      assert (Hba : In b (a :: l1))
        by (apply (Permutation_in _ (Permutation_sym HP)); now left).
      destruct Hab as [->|Hab]; [reflexivity|].
      destruct Hba as [->|Hba]; [reflexivity|].
      specialize (Ha _ Hba). specialize (Hb _ Hab). lia. }
    subst b. f_equal. apply IH; auto.
    now apply Permutation_cons_inv in HP.
Qed.

Lemma sort_perm_eq l l' :
  Permutation l l' -> sort compareFn l = sort compareFn l'.
Proof.
  intros H. apply sorted_perm_unique; try apply sort_sorted.
  rewrite !sort_perm. exact H.
Qed.

Lemma Permutation_filter {A} (f : A -> bool) l l' :
  Permutation l l' -> Permutation (filter f l) (filter f l').
Proof.
  induction 1 as [|x l l' _ IH|x y l|l l' l'' _ IH1 _ IH2]; simpl.
  - constructor.
  - destruct (f x); [now constructor|assumption].
  - destruct (f x), (f y); try reflexivity. apply perm_swap.
  - now transitivity (filter f l').
Qed.

Lemma codePointsOf_sort data propertyName :
  codePointsOf data propertyName
  = sort compareFn (flat_map expansion (ranges data propertyName)).
Proof. unfold codePointsOf. now rewrite reduce_expansion. Qed.

(** X4.  The table of a property does not depend on the order in which
    the records come: two lists of records that are permutations of one
    another give the same table. *)
Theorem X4_record_order_irrelevant
  (data data' : list Groups) (propertyName : jsstring) :
  Permutation data data' ->
  codePointsOf data propertyName = codePointsOf data' propertyName.
Proof.
  intros H. rewrite !codePointsOf_sort. apply sort_perm_eq.
  unfold ranges, selectProperty.
  apply Permutation_flat_map, Permutation_map, Permutation_filter, H.
Qed.

Lemma X4_record_order_irrelevant_witness :
  Permutation
    [mkGroups (js "0050") None (js "Foo");
     mkGroups (js "0041") (Some (js "0043")) (js "Foo")]
    [mkGroups (js "0041") (Some (js "0043")) (js "Foo");
     mkGroups (js "0050") None (js "Foo")]
  /\ codePointsOf
       [mkGroups (js "0050") None (js "Foo");
        mkGroups (js "0041") (Some (js "0043")) (js "Foo")] (js "Foo")
     = codePointsOf
         [mkGroups (js "0041") (Some (js "0043")) (js "Foo");
          mkGroups (js "0050") None (js "Foo")] (js "Foo").
Proof.
  assert (H : Permutation
    [mkGroups (js "0050") None (js "Foo");
     mkGroups (js "0041") (Some (js "0043")) (js "Foo")]
    [mkGroups (js "0041") (Some (js "0043")) (js "Foo");
     mkGroups (js "0050") None (js "Foo")]) by apply perm_swap.
  split; [exact H|].
  exact (X4_record_order_irrelevant _ _ (js "Foo") H).
Defined.

Lemma ranges_app d1 d2 propertyName :
  ranges (d1 ++ d2) propertyName
  = ranges d1 propertyName ++ ranges d2 propertyName.
Proof. unfold ranges, selectProperty. now rewrite filter_app, map_app. Qed.

(** X5.  Tables compose: the table built from two lists of records put
    end to end is the sorted concatenation of the tables built from
    each of them. *)
Theorem X5_table_of_concatenation
  (data1 data2 : list Groups) (propertyName : jsstring) :
  codePointsOf (data1 ++ data2) propertyName
  = sort compareFn (codePointsOf data1 propertyName
                      ++ codePointsOf data2 propertyName).
Proof.
  rewrite (codePointsOf_sort (data1 ++ data2)).
  apply sort_perm_eq.
  rewrite ranges_app, flat_map_app.
  apply Permutation_app; apply Permutation_sym, codePointsOf_perm.
Qed.

Lemma selectProperty_other data propertyName :
  (forall g, In g data -> property g <> propertyName) ->
  selectProperty data propertyName = [].
Proof.
  unfold selectProperty. induction data as [|g data IH]; intros H;
    [reflexivity|].
  cbn [filter]. destruct (eqb (property g) propertyName) eqn:E.
  - apply eqb_eq in E. exfalso. apply (H g); [now left|exact E].
  - apply IH. intros g' Hg'. apply H. now right.
Qed.

(** X6.  Records of other properties do not reach a table: taking
    records whose property differs from the name out of the list leaves
    the table of that name as it is.  The comparison is exact, so a
    property that differs by case only is another property. *)
Theorem X6_other_properties_ignored
  (data1 others data2 : list Groups) (propertyName : jsstring) :
  (forall g, In g others -> property g <> propertyName) ->
  codePointsOf (data1 ++ others ++ data2) propertyName
  = codePointsOf (data1 ++ data2) propertyName.
Proof.
  intros H. unfold codePointsOf.
  rewrite !ranges_app. unfold ranges at 2.
  rewrite (selectProperty_other others propertyName H). reflexivity.
Qed.

Lemma X6_other_properties_ignored_witness :
  (forall g, In g [mkGroups (js "0041") None (js "foo");
                   mkGroups (js "0042") None (js "Bar")] ->
             property g <> js "Foo")
  /\ codePointsOf ([mkGroups (js "0050") None (js "Foo")]
                     ++ [mkGroups (js "0041") None (js "foo");
                         mkGroups (js "0042") None (js "Bar")]
                     ++ [mkGroups (js "0030") None (js "Foo")]) (js "Foo")
     = codePointsOf ([mkGroups (js "0050") None (js "Foo")]
                       ++ [mkGroups (js "0030") None (js "Foo")]) (js "Foo").
Proof.
  assert (H : forall g, In g [mkGroups (js "0041") None (js "foo");
                              mkGroups (js "0042") None (js "Bar")] ->
                        property g <> js "Foo").
  { intros g [<-|[<-|[]]]; discriminate. }
  split; [exact H|].
  exact (X6_other_properties_ignored _ _ _ (js "Foo") H).
Defined.






(** The second range of [overlappingText] repeats 0x42 and 0x43. *)
Example overlapping_ranges_leave_duplicates :
  codePointsOf (matchAll overlappingText) (js "Foo")
  = [0x41; 0x42; 0x42; 0x43; 0x43; 0x44].
Proof. vm_compute; reflexivity. Qed.

(** ** Digits, read and written *)

Lemma upperHex_isHex c : isUpperHexDigit c = true -> isHexDigit c = true.
Proof. by_cases_on_char c. Qed.

Lemma upperChar_hex c :
  isHexDigit c = true ->
  isHexDigit (upperChar c) = true /\ digitValue (upperChar c) = digitValue c.
Proof. destruct c as [[] [] [] [] [] [] [] []]; vm_compute; intuition congruence. Qed.

Lemma forallb_impl {A} (p q : A -> bool) l :
  (forall x, p x = true -> q x = true) ->
  forallb p l = true -> forallb q l = true.
Proof.
  intros H. induction l as [|x l IH]; [reflexivity|]. cbn [forallb].
  rewrite !andb_true_iff. intros [Hx Hl]. split; [now apply H|now apply IH].
Qed.

(** X9.  Writing and reading agree: the digits put between the braces
    of the literal of a non-negative code point are read back by
    [parseInt(_, 16)] as that code point, and two different code points
    never get the same literal. *)
Theorem X9_literal_digits_round_trip (cp : Z) :
  0 <= cp ->
  parseInt16 (hexOf cp) = Num cp
  /\ forall cp', 0 <= cp' -> charLiteral cp = charLiteral cp' -> cp = cp'.
Proof.
  intros Hcp.
  assert (Hparse : forall n, 0 <= n -> parseInt16 (hexOf n) = Num n).
  { intros n Hn. destruct (hexOf_spec n Hn) as (Hlen & Hup & Hval & _).
    rewrite parseInt16_hex, Hval; [reflexivity|].
    split; [intros E; rewrite E in Hlen; simpl in Hlen; lia|].
    exact (forallb_impl _ _ _ upperHex_isHex Hup). }
  split; [now apply Hparse|].
  intros cp' Hcp' E. unfold charLiteral in E.
  apply app_inv_head, app_inv_tail in E.
  pose proof (Hparse cp Hcp) as H1. pose proof (Hparse cp' Hcp') as H2.
  rewrite E in H1. congruence.
Qed.

Lemma X9_literal_digits_round_trip_witness :
  0 <= 0x1F600
  /\ parseInt16 (hexOf 0x1F600) = Num 0x1F600
  /\ forall cp', 0 <= cp' -> charLiteral 0x1F600 = charLiteral cp' ->
                 0x1F600 = cp'.
Proof.
  split; [lia|]. apply (X9_literal_digits_round_trip 0x1F600). lia.
Defined.

Lemma hexValueFrom_upperHex a s :
  forallb isHexDigit s = true ->
  hexValueFrom a (toUpperCase s) = hexValueFrom a s.
Proof.
  revert a; induction s as [|c s IH]; intros a H; [reflexivity|].
  simpl in H; apply andb_true_iff in H as [Hc H].
  change (hexValueFrom (16 * a + digitValue (upperChar c)) (toUpperCase s)
          = hexValueFrom (16 * a + digitValue c) s).
  destruct (upperChar_hex c Hc) as [_ ->]. now apply IH.
Qed.

Lemma toUpperCase_hex s :
  nonempty_all isHexDigit s -> nonempty_all isHexDigit (toUpperCase s).
Proof.
  intros [Hne Hall]. split.
  - destruct s; [congruence|discriminate].
  - clear Hne. induction s as [|c s IH]; [reflexivity|].
    simpl in Hall; apply andb_true_iff in Hall as [Hc Hs].
    change (isHexDigit (upperChar c)
            && forallb isHexDigit (toUpperCase s) = true).
    destruct (upperChar_hex c Hc) as [-> _]. now apply IH.
Qed.

Lemma parseInt16_upper h :
  nonempty_all isHexDigit h -> parseInt16 (toUpperCase h) = parseInt16 h.
Proof.
  intros H. rewrite (parseInt16_hex _ H), (parseInt16_hex _ (toUpperCase_hex _ H)).
  f_equal. apply (hexValueFrom_upperHex 0 h), H.
Qed.

Lemma nonempty_allb_iff p s : nonempty_allb p s = true <-> nonempty_all p s.
Proof.
  split; [apply nonempty_allb_spec|].
  intros [Hne Hall]. unfold nonempty_allb.
  rewrite Hall, andb_true_r. destruct s; [congruence|reflexivity].
Qed.

Lemma wfLine_upperHexLine l : wfLine l = true -> wfLine (upperHexLine l) = true.
Proof.
  destruct l as [h1 h2 ws1 ws2 tok trail|content]; [|trivial].
  unfold upperHexLine, wfLine. rewrite !andb_true_iff.
  intros ((((((((A & B) & C) & D) & E) & F) & G) & H) & I).
  repeat split; try assumption.
  - now apply nonempty_allb_iff, toUpperCase_hex, nonempty_allb_iff.
  - destruct h2 as [e|]; [|reflexivity].
    now apply nonempty_allb_iff, toUpperCase_hex, nonempty_allb_iff.
Qed.

Lemma ranges_upperHexLine ls propertyName :
  forallb wfLine ls = true ->
  ranges (recordsOf (map upperHexLine ls)) propertyName
  = ranges (recordsOf ls) propertyName.
Proof.
  induction ls as [|l ls IH]; intros H; [reflexivity|].
  cbn [forallb] in H. apply andb_true_iff in H as [Hl Hls].
  cbn [map]. rewrite (recordsOf_cons (upperHexLine l)), (recordsOf_cons l).
  rewrite !ranges_app, (IH Hls). f_equal.
  destruct l as [h1 h2 ws1 ws2 tok trail|content]; [|reflexivity].
  apply wfLine_record in Hl as (Hh1 & Hend & _).
  unfold ranges, selectProperty. cbn [upperHexLine recordsOf flat_map app filter property].
  destruct (eqb tok propertyName); [|reflexivity].
  cbn [map]. f_equal. unfold rangeOf. cbn [codePointStart codePointEnd].
  rewrite (parseInt16_upper _ Hh1).
  destruct h2 as [e|]; cbn [option_map];
    [now rewrite (parseInt16_upper _ Hend)|now rewrite (parseInt16_upper _ Hh1)].
Qed.

(** X10.  The case of the hexadecimal digits of the input does not
    matter: in a text of well-formed lines, writing the start and the
    end of every record in upper case leaves every table as it is. *)
Theorem X10_hex_case_irrelevant (ls : list Line) (propertyName : jsstring) :
  forallb wfLine ls = true ->
  codePointsOf (matchAll (textOf (map upperHexLine ls))) propertyName
  = codePointsOf (matchAll (textOf ls)) propertyName.
Proof.
  intros H.
  assert (H' : forallb wfLine (map upperHexLine ls) = true).
  { rewrite forallb_forall in *. intros l Hl.
    apply in_map_iff in Hl as (l0 & <- & Hl0).
    now apply wfLine_upperHexLine, H. }
  rewrite (matchAll_textOf _ H), (matchAll_textOf _ H').
  unfold codePointsOf. now rewrite ranges_upperHexLine.
Qed.

Lemma X10_hex_case_irrelevant_witness :
  forallb wfLine
    [RecordLine (js "00e9") (Some (js "00eb")) (js " ") (js " ") (js "Foo")
                (js " # x");
     OtherLine []] = true
  /\ codePointsOf
       (matchAll (textOf (map upperHexLine
          [RecordLine (js "00e9") (Some (js "00eb")) (js " ") (js " ")
                      (js "Foo") (js " # x");
           OtherLine []]))) (js "Foo")
     = codePointsOf
         (matchAll (textOf
            [RecordLine (js "00e9") (Some (js "00eb")) (js " ") (js " ")
                        (js "Foo") (js " # x");
             OtherLine []])) (js "Foo").
Proof.
  split; [reflexivity|].
  apply (X10_hex_case_irrelevant
           [RecordLine (js "00e9") (Some (js "00eb")) (js " ") (js " ")
                       (js "Foo") (js " # x");
            OtherLine []] (js "Foo")).
  reflexivity.
Defined.

(** ** The run as a whole *)






(** ** The listeners of the request *)



Lemma run_without_end OUTPUT_FILE execSync events :
  forallb (fun e => negb (isEnd e)) events = true ->
  forall st, Fetch.exited st = false ->
    let st' := Fetch.run OUTPUT_FILE execSync events st in
    Fetch.exited st' = false
    /\ Fetch.world st'
       = mkWorld (console (Fetch.world st) ++ flat_map failureLines events)
                 (disk (Fetch.world st)) (writable (Fetch.world st)).
Proof.
  unfold Fetch.run.
  induction events as [|e events IH]; intros H st Hst.
  - simpl. rewrite app_nil_r. split; [exact Hst|now destruct (Fetch.world st)].
  - cbn [forallb] in H. apply andb_true_iff in H as [He H].
    cbn [fold_left flat_map].
    assert (Hstep : Fetch.exited (Fetch.deliver OUTPUT_FILE execSync st e) = false
              /\ Fetch.world (Fetch.deliver OUTPUT_FILE execSync st e)
                 = mkWorld (console (Fetch.world st) ++ failureLines e)
                           (disk (Fetch.world st)) (writable (Fetch.world st))).
    { unfold Fetch.deliver. rewrite Hst.
      destruct e as [|chunk| |message]; try discriminate He; cbn [failureLines].
      - cbn [Fetch.onResponse Fetch.exited Fetch.world].
        rewrite app_nil_r. split; [exact Hst|now destruct (Fetch.world st)].
      - unfold Fetch.onData. destruct (Fetch.text st);
          cbn [Fetch.exited Fetch.world]; rewrite app_nil_r;
          (split; [exact Hst|now destruct (Fetch.world st)]).
      - unfold Fetch.onError, console_log; cbn [Fetch.exited Fetch.world].
        split; [exact Hst|reflexivity]. }
    destruct Hstep as [Hex Hw].
    destruct (IH H _ Hex) as [Hex' Hw'].
    split; [exact Hex'|]. rewrite Hw', Hw. cbn [console disk writable].
    now rewrite <- app_assoc.
Qed.

(** X14.  Without an ["end"] event nothing is built: whatever responses,
    chunks and request errors are delivered, no file changes, the
    formatter is not called and the process goes on; the console gains
    one [Failed to get 'PropList.txt': ...] line per error, with its
    message, and nothing else. *)
Theorem X14_nothing_is_written_before_end
  (OUTPUT_FILE : jsstring) (execSync : jsstring -> World -> completion)
  (events : list Fetch.event) (w : World) :
  forallb (fun e => negb (isEnd e)) events = true ->
  Fetch.exited (Fetch.run OUTPUT_FILE execSync events (Fetch.start w)) = false
  /\ Fetch.world (Fetch.run OUTPUT_FILE execSync events (Fetch.start w))
     = mkWorld (console w ++ flat_map failureLines events)
               (disk w) (writable w).
Proof.
  intros H.
  exact (run_without_end OUTPUT_FILE execSync events H (Fetch.start w) eq_refl).
Qed.

Lemma X14_nothing_is_written_witness :
  forallb (fun e => negb (isEnd e))
    [Fetch.response; Fetch.data (js "0041 ; Foo"); Fetch.error (js "socket hang up")]
  = true
  /\ Fetch.exited
       (Fetch.run (js "src/tables.rs") (fun _ w => Returned w)
          [Fetch.response; Fetch.data (js "0041 ; Foo");
           Fetch.error (js "socket hang up")] (Fetch.start usedWorld)) = false
  /\ Fetch.world
       (Fetch.run (js "src/tables.rs") (fun _ w => Returned w)
          [Fetch.response; Fetch.data (js "0041 ; Foo");
           Fetch.error (js "socket hang up")] (Fetch.start usedWorld))
     = mkWorld (console usedWorld
                  ++ flat_map failureLines
                       [Fetch.response; Fetch.data (js "0041 ; Foo");
                        Fetch.error (js "socket hang up")])
               (disk usedWorld) (writable usedWorld).
Proof.
  split; [reflexivity|].
  apply (X14_nothing_is_written_before_end (js "src/tables.rs")
           (fun _ w => Returned w)
           [Fetch.response; Fetch.data (js "0041 ; Foo");
            Fetch.error (js "socket hang up")] usedWorld).
  reflexivity.
Defined.

(** ** Records over several lines *)

(** X15.  The white space around the semicolon may hold line feeds, so
    a record need not fit on one line: a text that begins with a start,
    an optional end, any white space, a semicolon, any white space and
    a token followed by white space or by nothing yields the record of
    this start, end and token first, wherever the line feeds are. *)
Theorem X15_record_may_span_lines
  (hexStart : jsstring) (hexEnd : option jsstring)
  (ws1 ws2 token rest : jsstring) :
  nonempty_allb isHexDigit hexStart = true ->
  match hexEnd with
  | Some e => nonempty_allb isHexDigit e
  | None => true
  end = true ->
  forallb isWhiteSpace ws1 = true -> forallb isWhiteSpace ws2 = true ->
  nonempty_allb notWhiteSpace token = true ->
  stopsb notWhiteSpace rest = true ->
  matchAll (recordText hexStart hexEnd ws1 ws2 token ++ rest)
  = mkGroups hexStart hexEnd token :: matchAll_from (S (length rest)) false rest.
Proof.
  intros Hs He H1 H2 Htok Hrest.
  change (matchAll (recordText hexStart hexEnd ws1 ws2 token ++ rest))
    with (scan true (recordText hexStart hexEnd ws1 ws2 token ++ rest)).
  rewrite scan_step.
  rewrite (exec_here true _ (mkGroups hexStart hexEnd token, rest));
    [reflexivity|].
  apply dataRegex_index0, dataRegex_line_run; auto using nonempty_allb_spec, stopsb_stops.
  destruct hexEnd; [now apply nonempty_allb_spec|exact I].
Qed.

Lemma X15_record_may_span_lines_witness :
  nonempty_allb isHexDigit (js "0041") = true
  /\ match Some (js "005A") with
     | Some e => nonempty_allb isHexDigit e
     | None => true
     end = true
  /\ forallb isWhiteSpace (nl ++ nl) = true
  /\ forallb isWhiteSpace (js " " ++ nl) = true
  /\ nonempty_allb notWhiteSpace (js "Foo") = true
  /\ stopsb notWhiteSpace nl = true
  /\ matchAll (recordText (js "0041") (Some (js "005A")) (nl ++ nl)
                          (js " " ++ nl) (js "Foo") ++ nl)
     = mkGroups (js "0041") (Some (js "005A")) (js "Foo")
       :: matchAll_from (S (length nl)) false nl.
Proof.
  repeat (split; [reflexivity|]).
  apply (X15_record_may_span_lines (js "0041") (Some (js "005A")) (nl ++ nl)
           (js " " ++ nl) (js "Foo") nl); reflexivity.
Defined.
